(** * The trade-feed socket service (client/src/services/socket.js)

    A shallow embedding of the Vue emitter that keeps the live trade feed:
    its data fields, the four socket handlers installed by [connect], and
    the methods [send], [disconnect], [reconnect], [fetch] and [trim].

    Conventions.
    - Timestamps and clock readings are integers in milliseconds ([Z]).
    - [reconnectionDelay] is a JavaScript number multiplied by [1.1] again
      and again. The state keeps its exact rational value ([Q]); the
      binary64 number the code holds, each product rounded, is followed by
      [delay64] and [scheduled64] along the same events.
    - The host (timers, sockets, HTTP, JSON) is visible through the state
      fields [timers] and [nextTimer] and through the effects a handler
      performs, in order. *)

From Stdlib Require Import ZArith QArith List String Ascii Bool Lia.
From Stdlib Require Import Qpower Lqa Sorted Permutation DecimalString.
From Stdlib Require DecimalPos DecimalZ.
From Stdlib Require Import Floats.
Import ListNotations.

Local Open Scope string_scope.
Local Open Scope list_scope.
Local Open Scope Z_scope.

Infix "+++" := String.append (right associativity, at level 60).

(* ------------------------------------------------------------------ *)
(** * Wire data *)

(** A trade tuple [[exchange, timestamp, price, size, side]]. The service
    reads and writes position 1 only. *)
Record Trade := mkTrade {
  trade_exchange : option string;
  trade_timestamp : Z;
  trade_price : Q;
  trade_size : Q;
  trade_side : option Z
}.

(** [trade[1]] *)
Definition ts (t : Trade) : Z := trade_timestamp t.

(** [trade[1] -= delay] *)
Definition shift (delay : Z) (t : Trade) : Trade :=
  mkTrade (trade_exchange t) (trade_timestamp t - delay)
          (trade_price t) (trade_size t) (trade_side t).

(** One entry of the [exchanges] list of a welcome frame. *)
Record ExchangeEntry := mkEntry {
  entry_id : string;
  entry_connected : bool
}.

(** A parsed JSON object, read through the properties the handler looks at.
    [type] is [None] when the object has no string-valued [type]. *)
Module Msg.
Record t := mk {
  type : option string;
  pair : string;
  exchanges : list ExchangeEntry;
  timestamp : option Z;
  admin : bool;
  id : string;
  message : string
}.
End Msg.

(** What [JSON.parse] can return. Arrays are arrays of trade tuples, as on
    the wire. The handler takes every non-empty array as a batch, whatever
    its elements; an array of other values is outside this model. *)
Inductive Data :=
| JNull
| JBool (b : bool)
| JNumber (n : Z)
| JString (s : string)
| JArray (a : list Trade)
| JObject (o : Msg.t).

(** [event.data], the text of a frame, seen through what the host's
    [JSON.parse] makes of it: the empty text and any other text that is not
    JSON raise a SyntaxError; a JSON text yields its value. *)
Inductive Payload :=
| EmptyText
| NotJSON
| JSONText (data : Data).

Inductive Error :=
| SyntaxError
| TypeError
| ErrorMsg (message : string).

Definition JSON_parse (p : Payload) : Error + Data :=
  match p with
  | EmptyText => inl SyntaxError
  | NotJSON => inl SyntaxError
  | JSONText data => inr data
  end.

(** JavaScript truthiness of a parsed value: [!data] holds of [null],
    [false], [0] and the empty string. *)
Definition truthy (d : Data) : bool :=
  match d with
  | JNull => false
  | JBool b => b
  | JNumber n => negb (n =? 0)
  | JString s => negb (String.eqb s EmptyString)
  | JArray _ => true
  | JObject _ => true
  end.

(** [data.type]: [undefined] on anything but an object that has one. *)
Definition data_type (d : Data) : option string :=
  match d with
  | JObject o => Msg.type o
  | _ => None
  end.

(* ------------------------------------------------------------------ *)
(** * Notifications and effects *)

Record Alert := mkAlert {
  alert_id : string;
  alert_type : string;
  alert_title : option string;
  alert_message : option string;
  alert_data : option (string * string)
}.

(** [this.$emit(name, ...)] *)
Inductive Notification :=
| Connected
| Disconnected
| SocketError
| Price (value state : string)
| Trades (batch : list Trade)
| Welcome (data : Msg.t)
| Admin
| Exchanges (list_ : list string)
| Pair (pair : string) (forced : bool)
| AlertN (a : Alert)
| History (replaced : bool)
| Trim (cutoff : Z).

Inductive Effect :=
| Emit (n : Notification)
| NewWebSocket (url : string)
| SocketSend (method message : string)
| SocketClose
| ClearInterval
| HttpGet (url : string).

(* ------------------------------------------------------------------ *)
(** * State *)

(** The emitter's data, its instance fields ([http_url], [delayed],
    [reconnectionTimeout], [lastFetchUrl]) and, last, the host's pending
    timers. [socket] is the [readyState] of the current WebSocket. *)
Record State := mkState {
  url : string;
  http_url : string;
  delay : Z;
  delayed : bool;
  trades : list Trade;
  exchanges : list string;
  socket : option Z;
  connected : bool;
  reconnectionDelay : Q;
  reconnectionTimeout : option nat;
  lastFetchUrl : option string;
  timers : list (nat * Q);
  nextTimer : nat
}.

Definition set_delay (v : Z) (s : State) : State :=
  mkState (url s) (http_url s) v (delayed s) (trades s) (exchanges s)
          (socket s) (connected s) (reconnectionDelay s)
          (reconnectionTimeout s) (lastFetchUrl s) (timers s) (nextTimer s).

Definition set_delayed (v : bool) (s : State) : State :=
  mkState (url s) (http_url s) (delay s) v (trades s) (exchanges s)
          (socket s) (connected s) (reconnectionDelay s)
          (reconnectionTimeout s) (lastFetchUrl s) (timers s) (nextTimer s).

Definition set_trades (v : list Trade) (s : State) : State :=
  mkState (url s) (http_url s) (delay s) (delayed s) v (exchanges s)
          (socket s) (connected s) (reconnectionDelay s)
          (reconnectionTimeout s) (lastFetchUrl s) (timers s) (nextTimer s).

Definition set_exchanges (v : list string) (s : State) : State :=
  mkState (url s) (http_url s) (delay s) (delayed s) (trades s) v
          (socket s) (connected s) (reconnectionDelay s)
          (reconnectionTimeout s) (lastFetchUrl s) (timers s) (nextTimer s).

Definition set_socket (v : option Z) (s : State) : State :=
  mkState (url s) (http_url s) (delay s) (delayed s) (trades s) (exchanges s)
          v (connected s) (reconnectionDelay s)
          (reconnectionTimeout s) (lastFetchUrl s) (timers s) (nextTimer s).

Definition set_connected (v : bool) (s : State) : State :=
  mkState (url s) (http_url s) (delay s) (delayed s) (trades s) (exchanges s)
          (socket s) v (reconnectionDelay s)
          (reconnectionTimeout s) (lastFetchUrl s) (timers s) (nextTimer s).

Definition set_reconnectionDelay (v : Q) (s : State) : State :=
  mkState (url s) (http_url s) (delay s) (delayed s) (trades s) (exchanges s)
          (socket s) (connected s) v
          (reconnectionTimeout s) (lastFetchUrl s) (timers s) (nextTimer s).

Definition set_reconnectionTimeout (v : option nat) (s : State) : State :=
  mkState (url s) (http_url s) (delay s) (delayed s) (trades s) (exchanges s)
          (socket s) (connected s) (reconnectionDelay s)
          v (lastFetchUrl s) (timers s) (nextTimer s).

Definition set_lastFetchUrl (v : option string) (s : State) : State :=
  mkState (url s) (http_url s) (delay s) (delayed s) (trades s) (exchanges s)
          (socket s) (connected s) (reconnectionDelay s)
          (reconnectionTimeout s) v (timers s) (nextTimer s).

Definition set_timers (v : list (nat * Q)) (s : State) : State :=
  mkState (url s) (http_url s) (delay s) (delayed s) (trades s) (exchanges s)
          (socket s) (connected s) (reconnectionDelay s)
          (reconnectionTimeout s) (lastFetchUrl s) v (nextTimer s).

Definition set_nextTimer (v : nat) (s : State) : State :=
  mkState (url s) (http_url s) (delay s) (delayed s) (trades s) (exchanges s)
          (socket s) (connected s) (reconnectionDelay s)
          (reconnectionTimeout s) (lastFetchUrl s) (timers s) v.

(* ------------------------------------------------------------------ *)
(** * Handlers as state transformers that may throw

    A handler runs on a state and gives back its value or the error it
    threw, the state it left, and the effects it performed in order. A
    throw keeps the state and the effects reached so far. *)

Definition M (A : Type) : Type := State -> (Error + A) * State * list Effect.

Definition ret {A} (a : A) : M A := fun s => (inr a, s, []).

Definition bind {A B} (m : M A) (k : A -> M B) : M B :=
  fun s =>
    match m s with
    | (inl e, s1, out1) => (inl e, s1, out1)
    | (inr a, s1, out1) =>
        match k a s1 with
        | (r, s2, out2) => (r, s2, out1 ++ out2)
        end
    end.

Notation "x <- c1 ;; c2" := (bind c1 (fun x => c2))
  (at level 61, c1 at next level, right associativity).
Notation "c1 ;; c2" := (bind c1 (fun _ => c2))
  (at level 61, right associativity).

Definition get : M State := fun s => (inr s, s, []).
Definition modify (f : State -> State) : M unit := fun s => (inr tt, f s, []).
Definition perform (e : Effect) : M unit := fun s => (inr tt, s, [e]).
Definition emit (n : Notification) : M unit := perform (Emit n).
Definition throw {A} (e : Error) : M A := fun s => (inl e, s, []).
Definition when (b : bool) (m : M unit) : M unit := if b then m else ret tt.

Definition lift {A} (r : Error + A) : M A :=
  match r with
  | inl e => throw e
  | inr a => ret a
  end.

(** Projections of a run. *)
Definition result_of {A} (r : (Error + A) * State * list Effect) : Error + A :=
  fst (fst r).
Definition state_of {A} (r : (Error + A) * State * list Effect) : State :=
  snd (fst r).
Definition effects_of {A} (r : (Error + A) * State * list Effect) : list Effect :=
  snd r.

(* ------------------------------------------------------------------ *)
(** * Host and library functions *)

(** The clock ([+new Date()]) and the imported [options.debug], as read
    when a handler runs. *)
Record Env := mkEnv {
  now : Z;
  debug : bool
}.

(** [data.sort((a, b) => a[1] - b[1])]: a stable sort by insertion with
    the source's comparator. *)
Definition compare_ts (a b : Trade) : Z := ts a - ts b.

Fixpoint insert (a : Trade) (l : list Trade) : list Trade :=
  match l with
  | [] => [a]
  | b :: l' => if compare_ts a b <=? 0 then a :: b :: l' else b :: insert a l'
  end.

Fixpoint sort (l : list Trade) : list Trade :=
  match l with
  | [] => []
  | a :: l' => insert a (sort l')
  end.

(** [array.indexOf(x)], [-1] when absent. *)
Fixpoint indexOf_from (x : string) (l : list string) (i : Z) : Z :=
  match l with
  | [] => -1
  | y :: l' => if String.eqb y x then i else indexOf_from x l' (i + 1)
  end.

Definition indexOf (x : string) (l : list string) : Z := indexOf_from x l 0.

(** [array.splice(start, count)] on a copy: what is left of the array. *)
Definition splice {A} (start count : nat) (l : list A) : list A :=
  firstn start l ++ skipn (start + count) l.

(** [s.toUpperCase()] on ASCII letters. *)
Definition upper (c : ascii) : ascii :=
  let n := nat_of_ascii c in
  if (97 <=? n)%nat && (n <=? 122)%nat then ascii_of_nat (n - 32) else c.

Fixpoint toUpperCase (s : string) : string :=
  match s with
  | EmptyString => EmptyString
  | String c s' => String (upper c) (toUpperCase s')
  end.

(** [parseInt(n)] in a template string, for a number [n] that is an
    integer of magnitude below 10^21: all its digits. A larger number prints
    in exponent form and [parseInt] keeps its leading digits only, and a
    fraction is cut off; [from] and [to] are integers here, and a property
    that tells two URLs apart is stated below 10^21. *)
Definition string_of_Z (z : Z) : string := NilZero.string_of_int (Z.to_int z).

(** [url.replace(/^ws(s?)\:\/\//, 'http$1://')] *)
Definition to_http (u : string) : string :=
  if String.prefix "wss://" u
  then "https://" +++ substring 6 (String.length u - 6) u
  else if String.prefix "ws://" u
  then "http://" +++ substring 5 (String.length u - 5) u
  else u.

(** [clearTimeout(id)]: forgets the pending timer [id], if there is one. *)
Definition clearTimeout (id : option nat) : M unit :=
  modify (fun s =>
    set_timers
      (filter (fun t => match id with
                        | Some i => negb (Nat.eqb (fst t) i)
                        | None => true
                        end) (timers s)) s).

(** [setTimeout(this.connect.bind(this), d)]: a fresh pending timer. *)
Definition setTimeout (d : Q) : M nat :=
  fun s =>
    let id := nextTimer s in
    (inr id, set_nextTimer (S id) (set_timers (timers s ++ [(id, d)]) s), []).

(* ------------------------------------------------------------------ *)
(** * The emitter *)

(** [data()] and [created()]. *)
Definition created (API_URL : option string) : State :=
  let u := match API_URL with
           | Some v => if String.eqb v EmptyString then "ws://localhost:3000" else v
           | None => "ws://localhost:3000"
           end in
  mkState u (to_http u) 0 false [] [] None false 2000%Q None None [] 1%nat.

(** [this.socket && this.socket.readyState === 1] *)
Definition socket_open (s : State) : bool :=
  match socket s with
  | Some rs => rs =? 1
  | None => false
  end.

Definition connect : M unit :=
  s <- get ;;
  if socket_open s then ret tt
  else
    perform (NewWebSocket (url s)) ;;
    modify (set_socket (Some 0)).

Definition onopen : M unit :=
  modify (set_connected true) ;;
  emit Connected ;;
  emit (Price "???" "neutral") ;;
  modify (set_reconnectionDelay 5000%Q).

Definition reconnect : M unit :=
  s <- get ;;
  if socket_open s then ret tt
  else
    clearTimeout (reconnectionTimeout s) ;;
    id <- setTimeout (reconnectionDelay s) ;;
    modify (set_reconnectionTimeout (Some id)) ;;
    modify (fun s => set_reconnectionDelay (reconnectionDelay s * 1.1)%Q s).

Definition onclose : M unit :=
  s <- get ;;
  when (connected s)
    (modify (set_connected false) ;;
     emit (AlertN (mkAlert "server_status" "error" None (Some "Connection lost") None)) ;;
     emit Disconnected ;;
     perform ClearInterval) ;;
  reconnect.

Definition onerror : M unit :=
  emit (AlertN (mkAlert "server_status" "error" None
                        (Some "Couldn't reach the server") None)) ;;
  emit SocketError ;;
  reconnect.

Definition send (method message : string) : M unit :=
  s <- get ;;
  when (socket_open s) (perform (SocketSend method message)).

Definition disconnect : M unit :=
  s <- get ;;
  match socket s with
  | Some rs =>
      perform SocketClose ;;
      modify (set_socket (Some (if rs <? 2 then 2 else rs)))
  | None => ret tt
  end.

(** The [switch (data.type)] of the message handler. *)
Definition control (env : Env) (data : Data) : M unit :=
  match data_type data, data with
  | Some ty, JObject o =>
      if String.eqb ty "welcome" then
        emit (Welcome o) ;;
        when (Msg.admin o) (emit Admin) ;;
        modify (set_exchanges
                  (map entry_id (filter entry_connected (Msg.exchanges o)))) ;;
        modify (set_delay match Msg.timestamp o with
                          | Some t => if t =? 0 then 0 else t - now env
                          | None => 0
                          end) ;;
        modify (fun s => set_delayed (Z.abs (delay s) >? 2000) s) ;;
        s <- get ;;
        emit (Exchanges (exchanges s)) ;;
        emit (Pair (Msg.pair o) true) ;;
        emit (AlertN (mkAlert "server_status" "info"
                (Some ("Tracking " +++ Msg.pair o))
                (Some (if (List.length (exchanges s) =? 0)%nat
                       then "No connected exchanges"
                       else "On " +++ toUpperCase (String.concat ", " (exchanges s))))
                None))
      else if String.eqb ty "pair" then
        emit (Pair (Msg.pair o) false) ;;
        emit (AlertN (mkAlert "pair" "info"
                (Some ("Now tracking " +++ Msg.pair o)) None None))
      else if String.eqb ty "exchange_connected" then
        when (debug env)
          (emit (AlertN (mkAlert (Msg.id o +++ "_status") "success" None
                   (Some ("[" +++ Msg.id o +++ "] connected"))
                   (Some ("connected", Msg.id o))))) ;;
        s <- get ;;
        when (indexOf (Msg.id o) (exchanges s) =? -1)
          (modify (set_exchanges (exchanges s ++ [Msg.id o]))) ;;
        s <- get ;;
        emit (Exchanges (exchanges s))
      else if String.eqb ty "exchange_disconnected" then
        when (debug env)
          (emit (AlertN (mkAlert (Msg.id o +++ "_status") "error" None
                   (Some ("[" +++ Msg.id o +++ "] disconnected"))
                   (Some ("disconnected", Msg.id o))))) ;;
        s <- get ;;
        when (negb (indexOf (Msg.id o) (exchanges s) =? -1))
          (modify (set_exchanges
                     (splice (Z.to_nat (indexOf (Msg.id o) (exchanges s))) 1
                             (exchanges s)))) ;;
        s <- get ;;
        emit (Exchanges (exchanges s))
      else if String.eqb ty "exchange_error" then
        when (debug env)
          (emit (AlertN (mkAlert (Msg.id o +++ "_status") "error"
                   (Some ("[" +++ Msg.id o +++ "] an error occured"))
                   (Some (Msg.message o)) None)))
      else ret tt
  | _, _ => ret tt
  end.

(** [socket.onmessage]. The test [typeof data.type] of the second branch
    is a non-empty string whatever [data] is, so the branch is taken by
    every value that is not a non-empty array. *)
Definition onmessage (env : Env) (event_data : Payload) : M unit :=
  data <- lift (JSON_parse event_data) ;;
  if negb (truthy data) then throw (ErrorMsg "Unable to read socket message")
  else
    match data with
    | JArray ((_ :: _) as a) =>
        let data := sort a in
        s <- get ;;
        let data := if delayed s then map (shift (delay s)) data else data in
        modify (fun s => set_trades (trades s ++ data) s) ;;
        emit (Trades data)
    | _ => control env data
    end.

(** What [fetch] hands back: a promise already resolved with nothing, or
    the promise of the request it has just issued, whose [then] and [catch]
    handlers close over [willReplace]. *)
Inductive Promise :=
| Resolved
| Pending (url : string) (willReplace : bool).

Definition same_url (last : option string) (u : string) : bool :=
  match last with
  | Some v => String.eqb v u
  | None => false
  end.

(** [fetch(from, to = null, willReplace = false)], up to the request. *)
Definition fetch (env : Env) (from : Z) (to : option Z) (willReplace : bool)
  : M Promise :=
  let '(from, to, willReplace) :=
    match to with
    | Some t =>
        if t =? 0 then (now env - from * 1000 * 60, now env, true)
        else (from, t, willReplace)
    | None => (now env - from * 1000 * 60, now env, true)
    end in
  s <- get ;;
  let url := http_url s +++ "/history/" +++ string_of_Z from
                        +++ "/" +++ string_of_Z to in
  if same_url (lastFetchUrl s) url then ret Resolved
  else
    modify (set_lastFetchUrl (Some url)) ;;
    perform (HttpGet url) ;;
    ret (Pending url willReplace).

(** The [then] handler of the request: [response] is [response.data]; the
    value is what the promise resolves with. *)
Definition fetch_then (willReplace : bool) (response : list Trade)
  : M (list Trade) :=
  s <- get ;;
  let count := List.length (trades s) in
  let batch := if delayed s then map (shift (delay s)) response else response in
  (if willReplace || (List.length (trades s) =? 0)%nat then
     modify (set_trades batch)
   else
     match nth_error (trades s) 0,
           nth_error (trades s) (List.length (trades s) - 1) with
     | Some first, Some last =>
         let prepend := filter (fun trade => ts trade <=? ts first) batch in
         let append := filter (fun trade => ts trade >=? ts last) batch in
         when (negb (List.length prepend =? 0)%nat)
           (modify (fun s => set_trades (prepend ++ trades s) s)) ;;
         when (negb (List.length append =? 0)%nat)
           (modify (fun s => set_trades (trades s ++ append) s))
     | _, _ => throw TypeError
     end) ;;
  s' <- get ;;
  when (negb (count =? List.length (trades s'))%nat) (emit (History willReplace)) ;;
  ret batch.

(** The [catch] handler of the request; the promise is then rejected with
    [err]. [err] is the failure's message, [None] for a falsy [err]. *)
Definition fetch_catch (err : option string) : M unit :=
  match err with
  | Some message =>
      emit (AlertN (mkAlert "fetch_error" "error"
              (Some "Unable to retrieve history") (Some message) None))
  | None => ret tt
  end.

(** The loop of [trim]: [n] is [index + 1]; the value is [index] when the
    loop is left, [-1] when it runs to the end. *)
Fixpoint trim_scan (l : list Trade) (timestamp : Z) (n : nat) : Z :=
  match n with
  | O => -1
  | S index =>
      match nth_error l index with
      | Some trade =>
          if ts trade <? timestamp then Z.of_nat index
          else trim_scan l timestamp index
      | None => trim_scan l timestamp index
      end
  end.

Definition trim (timestamp : Z) : M unit :=
  s <- get ;;
  let index := trim_scan (trades s) timestamp (List.length (trades s)) in
  if index <? 0 then ret tt
  else
    modify (set_trades (splice 0 (Z.to_nat (index + 1)) (trades s))) ;;
    emit (Trim timestamp).

(* ------------------------------------------------------------------ *)
(** * The event loop *)

(** Everything that can run on the emitter: the transport moving the
    current socket to another [readyState], the four socket handlers, the
    reconnect timer, the methods, and the two ways a request ends. *)
Inductive Event :=
| Transport (readyState : Z)
| OnOpen
| OnMessage (event_data : Payload)
| OnClose
| OnError
| TimerFires (id : nat)
| Connect
| Send (method message : string)
| Disconnect
| Reconnect
| Fetch (from : Z) (to : option Z) (willReplace : bool)
| FetchThen (willReplace : bool) (response : list Trade)
| FetchCatch (err : option string)
| TrimTo (timestamp : Z).

Definition pending (id : nat) (s : State) : bool :=
  existsb (fun t => Nat.eqb (fst t) id) (timers s).

Definition step (env : Env) (e : Event) : M unit :=
  match e with
  | Transport rs =>
      modify (fun s => match socket s with
                       | Some _ => set_socket (Some rs) s
                       | None => s
                       end)
  | OnOpen => onopen
  | OnMessage event_data => onmessage env event_data
  | OnClose => onclose
  | OnError => onerror
  | TimerFires id =>
      s <- get ;;
      if pending id s then clearTimeout (Some id) ;; connect else ret tt
  | Connect => connect
  | Send method message => send method message
  | Disconnect => disconnect
  | Reconnect => reconnect
  | Fetch from to willReplace => _ <- fetch env from to willReplace ;; ret tt
  | FetchThen willReplace response => _ <- fetch_then willReplace response ;; ret tt
  | FetchCatch err => fetch_catch err
  | TrimTo timestamp => trim timestamp
  end.

(** The state after a run of events; an error thrown by a handler goes to
    the host and the state stays as the handler left it. *)
Fixpoint run (es : list (Env * Event)) (s : State) : State :=
  match es with
  | [] => s
  | (env, e) :: es' => run es' (state_of (step env e s))
  end.

Inductive reachable : State -> Prop :=
| reach_created : forall API_URL, reachable (created API_URL)
| reach_step : forall s env e, reachable s -> reachable (state_of (step env e s)).

(* ------------------------------------------------------------------ *)
(** * The trade buffer: order *)

Definition le_ts (a b : Trade) : Prop := ts a <= ts b.

(** The buffer's timestamps never go down. *)
Definition non_decreasing (l : list Trade) : Prop := StronglySorted le_ts l.

(** The clock correction both writers apply to a batch. *)
Definition corrected (s : State) (batch : list Trade) : list Trade :=
  if delayed s then map (shift (delay s)) batch else batch.

(** [this.trades[this.trades.length - 1]] *)
Definition last_of (l : list Trade) : option Trade :=
  nth_error l (List.length l - 1).


(** The two writers of the buffer, as operations: a live batch frame
    handled by [onmessage], and the completion of a history request
    handled by [fetch_then]. *)
Inductive BufferOp :=
| Live (batch : list Trade)
| Historical (willReplace : bool) (batch : list Trade).

Definition batch_of (op : BufferOp) : list Trade :=
  match op with
  | Live batch => batch
  | Historical _ batch => batch
  end.

Definition apply_op (env : Env) (op : BufferOp) (s : State) : State :=
  match op with
  | Live batch => state_of (onmessage env (JSONText (JArray batch)) s)
  | Historical willReplace batch => state_of (fetch_then willReplace batch s)
  end.

(** The states after each operation of a sequence, in order. *)
Fixpoint states (ops : list (Env * BufferOp)) (s : State) : list State :=
  match ops with
  | [] => []
  | (env, op) :: ops' =>
      let s' := apply_op env op s in
      s' :: states ops' s'
  end.

(** An operation that keeps the order of a buffer in state [s]: a live
    batch none of whose corrected timestamps is below the buffer's last
    one; a historical batch that is sorted. *)
Definition in_order (s : State) (op : BufferOp) : Prop :=
  match op with
  | Live batch =>
      forall x b, last_of (trades s) = Some x ->
                  In b (corrected s batch) -> ts x <= ts b
  | Historical _ batch => non_decreasing batch
  end.

Fixpoint all_in_order (ops : list (Env * BufferOp)) (s : State) : Prop :=
  match ops with
  | [] => True
  | (env, op) :: ops' => in_order s op /\ all_in_order ops' (apply_op env op s)
  end.

(** A trade tuple with a given timestamp, for concrete runs. *)
Definition trade_at (t : Z) : Trade := mkTrade None t 1%Q 1%Q None.

(** The [case] labels of the message handler's [switch]. *)
Definition recognized : list string :=
  ["welcome"; "pair"; "exchange_connected"; "exchange_disconnected";
   "exchange_error"].

(** [Array.isArray(data) && data.length] *)
Definition is_batch (d : Data) : bool :=
  match d with
  | JArray (_ :: _) => true
  | _ => false
  end.

(** An object whose [type] is one of the [case] labels. *)
Definition recognized_control (d : Data) : bool :=
  match data_type d with
  | Some ty => existsb (String.eqb ty) recognized
  | None => false
  end.

(** A welcome frame. *)
Definition is_welcome (e : Event) : bool :=
  match e with
  | OnMessage (JSONText (JObject o)) =>
      match Msg.type o with
      | Some ty => String.eqb ty "welcome"
      | None => false
      end
  | _ => false
  end.

(** A call of [fetch]. *)
Definition is_fetch (e : Event) : bool :=
  match e with
  | Fetch _ _ _ => true
  | _ => false
  end.

Definition no_welcome (es : list (Env * Event)) : bool :=
  forallb (fun ee => negb (is_welcome (snd ee))) es.

Definition no_fetch (es : list (Env * Event)) : bool :=
  forallb (fun ee => negb (is_fetch (snd ee))) es.

(** The effects of a run of events, in order. *)
Fixpoint trace (es : list (Env * Event)) (s : State) : list Effect :=
  match es with
  | [] => []
  | (env, e) :: es' =>
      effects_of (step env e s) ++ trace es' (state_of (step env e s))
  end.

(** The network requests among some effects. *)
Fixpoint requests (out : list Effect) : list string :=
  match out with
  | [] => []
  | HttpGet u :: out' => u :: requests out'
  | _ :: out' => requests out'
  end.

(** The URL [fetch] builds for an explicit range. *)
Definition history_url (s : State) (from to : Z) : string :=
  http_url s +++ "/history/" +++ string_of_Z from +++ "/" +++ string_of_Z to.

(** At most one timer is pending, and it is the one the emitter holds. *)
Definition single_slot (s : State) : Prop :=
  timers s = [] \/
  exists id d, timers s = [(id, d)] /\ reconnectionTimeout s = Some id.

(** [n] calls of [reconnect] in a row. *)
Definition reconnects (n : nat) (s : State) : State :=
  Nat.iter n (fun s => state_of (reconnect s)) s.

(** [inv I m]: the handler [m] keeps the state property [I], whether it
    returns or throws. *)
Definition inv {A} (I : State -> Prop) (m : M A) : Prop :=
  forall s, I s -> I (state_of (m s)).

(** [quiet m]: the handler [m] issues no network request. *)
Definition quiet {A} (m : M A) : Prop :=
  forall s, requests (effects_of (m s)) = [].

(* ------------------------------------------------------------------ *)
(** * Further vocabulary *)

(** A batch frame: a message whose value is a non-empty array. *)
Definition is_live_batch (e : Event) : bool :=
  match e with
  | OnMessage (JSONText d) => is_batch d
  | _ => false
  end.

(** The events that can write the trade buffer. *)
Definition writes_trades (e : Event) : bool :=
  match e with
  | OnMessage (JSONText d) => is_batch d
  | FetchThen _ _ => true
  | TrimTo _ => true
  | _ => false
  end.

(** The control frames that can write the exchange list. *)
Definition writes_exchanges (e : Event) : bool :=
  match e with
  | OnMessage (JSONText (JObject o)) =>
      match Msg.type o with
      | Some ty =>
          String.eqb ty "welcome" || String.eqb ty "exchange_connected"
          || String.eqb ty "exchange_disconnected"
      | None => false
      end
  | _ => false
  end.

(** [never_emits f m]: the handler [m] performs no effect that [f] picks. *)
Definition never_emits {A} (f : Effect -> bool) (m : M A) : Prop :=
  forall s, filter f (effects_of (m s)) = [].

(** How many of some effects [f] picks. *)
Definition count_effects (f : Effect -> bool) (out : list Effect) : nat :=
  List.length (filter f out).

Definition is_connected_note (e : Effect) : bool :=
  match e with
  | Emit Connected => true
  | _ => false
  end.

Definition is_disconnected_note (e : Effect) : bool :=
  match e with
  | Emit Disconnected => true
  | _ => false
  end.

(** Connected or disconnected notifications. *)
Definition is_link_note (e : Effect) : bool :=
  is_connected_note e || is_disconnected_note e.

(** An integer whose digits [parseInt] and the template string keep in
    full: below 10^21 in magnitude. *)
Definition printed_in_full (z : Z) : Prop := Z.abs z < 10 ^ 21.

(** Whether a text contains the path separator. *)
Fixpoint has_slash (s : string) : bool :=
  match s with
  | EmptyString => false
  | String c s' => Ascii.eqb c "/" || has_slash s'
  end.

(* ------------------------------------------------------------------ *)
(** * The reconnection delay in binary64

    Three places write [reconnectionDelay]: [data()] sets 2000, [onopen]
    sets 5000, and [reconnect], which the close and error handlers call
    and which is a method too, multiplies it by 1.1 when the socket is not
    open, after passing it to [setTimeout]. [delay_write] follows these
    writes over any number type: at the rationals it gives the state's
    field, at binary64 the number the code holds. *)

Section DelayWrites.
Context {N : Type} (warm : N) (grow : N -> N).

(** The delay after an event, from the delay [d] before it. *)
Definition delay_write (e : Event) (s : State) (d : N) : N :=
  match e with
  | OnOpen => warm
  | OnClose | OnError | Reconnect => if socket_open s then d else grow d
  | _ => d
  end.

(** The delay an event passes to [setTimeout], if it schedules. *)
Definition delay_scheduled (e : Event) (s : State) (d : N) : list N :=
  match e with
  | OnClose | OnError | Reconnect => if socket_open s then [] else [d]
  | _ => []
  end.

Fixpoint delay_run (es : list (Env * Event)) (s : State) (d : N) : N :=
  match es with
  | [] => d
  | (env, e) :: es' =>
      delay_run es' (state_of (step env e s)) (delay_write e s d)
  end.


End DelayWrites.






(** The exact delay, with the same writes. *)
Definition growQ (d : Q) : Q := (d * 1.1)%Q.
(* ------------------------------------------------------------------ *)
(** * Properties *)

Lemma ts_shift d t : ts (shift d t) = ts t - d.
Proof. reflexivity. Qed.

Lemma non_decreasing_app l1 l2 :
  non_decreasing l1 -> non_decreasing l2 ->
  (forall a b, In a l1 -> In b l2 -> ts a <= ts b) ->
  non_decreasing (l1 ++ l2).
Proof.
  unfold non_decreasing. induction l1 as [|x l1 IH]; intros H1 H2 H; simpl; auto.
  inversion H1; subst. constructor.
  - apply IH; auto. intros a b Ha Hb. apply H; simpl; auto.
  - apply Forall_app. split; auto.
    apply Forall_forall. intros b Hb. apply H; simpl; auto.
Qed.

Lemma non_decreasing_filter f l :
  non_decreasing l -> non_decreasing (filter f l).
Proof.
  unfold non_decreasing. induction 1 as [|x l Hs IH Hx]; simpl; [constructor|].
  destruct (f x); auto. constructor; auto.
  apply Forall_forall. intros y Hy. apply filter_In in Hy.
  rewrite Forall_forall in Hx. apply Hx. tauto.
Qed.

Lemma non_decreasing_shift d l :
  non_decreasing l -> non_decreasing (map (shift d) l).
Proof.
  unfold non_decreasing. induction 1 as [|x l Hs IH Hx]; simpl; constructor; auto.
  apply Forall_forall. intros y Hy. apply in_map_iff in Hy.
  destruct Hy as [z [<- Hz]]. rewrite Forall_forall in Hx.
  specialize (Hx z Hz). unfold le_ts in *. rewrite !ts_shift. lia.
Qed.

Lemma non_decreasing_corrected s l :
  non_decreasing l -> non_decreasing (corrected s l).
Proof. unfold corrected. destruct (delayed s); auto using non_decreasing_shift. Qed.

Lemma insert_In a l x : In x (insert a l) <-> x = a \/ In x l.
Proof.
  induction l as [|b l IH]; simpl.
  - intuition.
  - destruct (compare_ts a b <=? 0); simpl; rewrite ?IH; intuition.
Qed.

Lemma insert_non_decreasing a l :
  non_decreasing l -> non_decreasing (insert a l).
Proof.
  unfold non_decreasing. induction 1 as [|b l Hs IH Hb]; simpl.
  - repeat constructor.
  - destruct (compare_ts a b <=? 0) eqn:E; unfold compare_ts in E.
    + apply Z.leb_le in E. constructor; [constructor; auto|].
      constructor; [unfold le_ts; lia|].
      rewrite Forall_forall in *. intros y Hy. specialize (Hb y Hy).
      unfold le_ts in *. lia.
    + apply Z.leb_gt in E. constructor; auto.
      apply Forall_forall. intros y Hy. apply insert_In in Hy.
      destruct Hy as [->|Hy]; [unfold le_ts; lia|].
      rewrite Forall_forall in Hb. auto.
Qed.

Lemma sort_non_decreasing l : non_decreasing (sort l).
Proof.
  induction l; simpl; [constructor | auto using insert_non_decreasing].
Qed.

Lemma insert_perm a l : Permutation (a :: l) (insert a l).
Proof.
  induction l as [|b l IH]; simpl; auto.
  destruct (compare_ts a b <=? 0); auto.
  rewrite perm_swap. auto.
Qed.

Lemma sort_perm l : Permutation l (sort l).
Proof.
  induction l; simpl; auto.
  rewrite <- insert_perm. auto.
Qed.

Lemma last_of_app_single l x : last_of (l ++ [x]) = Some x.
Proof.
  unfold last_of. rewrite length_app. simpl.
  replace (List.length l + 1 - 1)%nat with (List.length l) by lia.
  rewrite nth_error_app2 by lia. rewrite Nat.sub_diag. reflexivity.
Qed.

Lemma non_decreasing_first l x y :
  non_decreasing l -> nth_error l 0 = Some x -> In y l -> ts x <= ts y.
Proof.
  intros H Hx Hy. destruct l as [|z l]; [inversion Hy|].
  injection Hx as ->. destruct Hy as [->|Hy]; [lia|].
  inversion H as [|? ? Hs Hall]; subst.
  rewrite Forall_forall in Hall. exact (Hall y Hy).
Qed.

Lemma non_decreasing_last l x y :
  non_decreasing l -> last_of l = Some x -> In y l -> ts y <= ts x.
Proof.
  intros Hs Hl Hy. destruct (exists_last (l:=l)) as [l' [z ->]].
  { intros ->. inversion Hy. }
  rewrite last_of_app_single in Hl. injection Hl as ->.
  apply in_app_or in Hy. destruct Hy as [Hy|[->|[]]]; [|lia].
  clear -Hs Hy. induction l' as [|a l' IH]; [inversion Hy|].
  simpl in Hs. inversion Hs as [|? ? Hs' Hall]; subst.
  destruct Hy as [->|Hy]; auto.
  rewrite Forall_forall in Hall. apply Hall. apply in_or_app. simpl. auto.
Qed.

Lemma last_of_some l : l <> [] -> exists x, last_of l = Some x.
Proof.
  intros H. destruct (exists_last H) as [l' [z ->]].
  exists z. apply last_of_app_single.
Qed.

Lemma when_emit b n s :
  when b (emit n) s = (inr tt, s, if b then [Emit n] else []).
Proof. destruct b; reflexivity. Qed.

Lemma when_modify b f s :
  when b (modify f) s = (inr tt, if b then f s else s, []).
Proof. destruct b; reflexivity. Qed.

(** What a batch frame does to the buffer. *)
Lemma onmessage_batch_trades env batch s :
  trades (state_of (onmessage env (JSONText (JArray batch)) s)) =
  match batch with
  | [] => trades s
  | _ :: _ => trades s ++ corrected s (sort batch)
  end.
Proof. destruct batch; reflexivity. Qed.

(** What the completion of a history request does to the buffer. *)
Lemma fetch_then_trades willReplace response s :
  trades (state_of (fetch_then willReplace response s)) =
  if willReplace || (List.length (trades s) =? 0)%nat then corrected s response
  else
    match nth_error (trades s) 0, last_of (trades s) with
    | Some first, Some last =>
        filter (fun trade => ts trade <=? ts first) (corrected s response)
        ++ trades s
        ++ filter (fun trade => ts trade >=? ts last) (corrected s response)
    | _, _ => trades s
    end.
Proof.
  unfold fetch_then, corrected, last_of, bind, get, state_of.
  cbv beta iota zeta.
  destruct (willReplace || (List.length (trades s) =? 0)%nat) eqn:E.
  - unfold modify. cbv beta iota. rewrite when_emit. reflexivity.
  - destruct (nth_error (trades s) 0) as [first|];
      [|unfold throw; reflexivity].
    destruct (nth_error (trades s) (List.length (trades s) - 1)) as [last|];
      [|unfold throw; reflexivity].
    rewrite !when_modify. cbv beta iota. rewrite when_emit. cbn.
    repeat match goal with
           | |- context [(List.length ?l =? 0)%nat] => destruct l; cbn
           end; rewrite ?app_nil_r, <- ?app_assoc; reflexivity.
Qed.

Lemma fetch_then_non_decreasing willReplace response s :
  non_decreasing (trades s) -> non_decreasing response ->
  non_decreasing (trades (state_of (fetch_then willReplace response s))).
Proof.
  intros Hs Hr. rewrite fetch_then_trades.
  pose proof (non_decreasing_corrected s _ Hr) as Hc.
  destruct (willReplace || _); auto.
  destruct (nth_error (trades s) 0) as [first|] eqn:Ef; [|assumption].
  destruct (last_of (trades s)) as [last|] eqn:El; [|assumption].
  assert (In first (trades s)) as Hf by (eapply nth_error_In; eauto).
  apply non_decreasing_app; [auto using non_decreasing_filter| |].
  - apply non_decreasing_app; [assumption|auto using non_decreasing_filter|].
    intros a b Ha Hb. apply filter_In in Hb. destruct Hb as [_ Hb].
    apply Z.geb_le in Hb.
    pose proof (non_decreasing_last _ _ _ Hs El Ha). lia.
  - intros a b Ha Hb. apply filter_In in Ha. destruct Ha as [_ Ha].
    apply Z.leb_le in Ha. apply in_app_or in Hb. destruct Hb as [Hb|Hb].
    + pose proof (non_decreasing_first _ _ _ Hs Ef Hb). lia.
    + apply filter_In in Hb. destruct Hb as [_ Hb]. apply Z.geb_le in Hb.
      pose proof (non_decreasing_last _ _ _ Hs El Hf). lia.
Qed.

Lemma corrected_In_sort s batch b :
  In b (corrected s (sort batch)) -> In b (corrected s batch).
Proof.
  unfold corrected. intros H.
  assert (Permutation (sort batch) batch) as P by (symmetry; apply sort_perm).
  destruct (delayed s).
  - eapply Permutation_in; [apply Permutation_map; exact P | exact H].
  - eapply Permutation_in; [exact P | exact H].
Qed.

Lemma onmessage_batch_non_decreasing env batch s :
  non_decreasing (trades s) -> in_order s (Live batch) ->
  non_decreasing (trades (state_of (onmessage env (JSONText (JArray batch)) s))).
Proof.
  intros Hs Ho. rewrite onmessage_batch_trades.
  destruct batch as [|t batch]; [assumption|].
  apply non_decreasing_app; [assumption| |].
  - apply non_decreasing_corrected, sort_non_decreasing.
  - intros a b Ha Hb. apply corrected_In_sort in Hb.
    destruct (last_of_some (trades s)) as [x Hx].
    { intros E. rewrite E in Ha. inversion Ha. }
    pose proof (non_decreasing_last _ _ _ Hs Hx Ha).
    pose proof (Ho x b Hx Hb). lia.
Qed.

(** C1 (as amended). From a buffer whose timestamps are non-decreasing (the
    empty buffer of a fresh emitter is one), along every sequence of live
    batch frames and history completions in which each historical batch is
    sorted and no live batch carries a corrected timestamp below the
    buffer's last one when it arrives, the buffer's timestamps are
    non-decreasing after every operation. *)
Theorem ordering_invariant_in_order ops s :
  non_decreasing (trades s) -> all_in_order ops s ->
  Forall (fun s' => non_decreasing (trades s')) (states ops s).
Proof.
  revert s. induction ops as [|[env op] ops IH]; intros s Hs Hops; simpl.
  - constructor.
  - destruct Hops as [Hop Hops].
    assert (non_decreasing (trades (apply_op env op s))) as Hs'.
    { destruct op as [batch|w batch]; simpl.
      - apply onmessage_batch_non_decreasing; assumption.
      - apply fetch_then_non_decreasing; assumption. }
    constructor; auto.
Qed.

Lemma ordering_invariant_in_order_witness :
  let env := mkEnv 0 false in
  let ops := [(env, Live [trade_at 200; trade_at 100]);
              (env, Historical false [trade_at 50; trade_at 150; trade_at 350]);
              (env, Live [trade_at 400])] in
  let s := created None in
  non_decreasing (trades s) /\ all_in_order ops s /\
  Forall (fun s' => non_decreasing (trades s')) (states ops s).
Proof.
  intros env ops s.
  assert (H1 : non_decreasing (trades s)) by constructor.
  assert (H2 : all_in_order ops s).
  { split; [|split; [|split; [|exact I]]].
    - intros x b Hx. vm_compute in Hx. discriminate.
    - repeat constructor; unfold le_ts; simpl; lia.
    - intros x b Hx Hb. vm_compute in Hx. injection Hx as <-.
      destruct Hb as [<-|[]]. simpl. lia. }
  exact (conj H1 (conj H2 (ordering_invariant_in_order ops s H1 H2))).
Defined.

(** C1 as stated fails: on a fresh emitter (no clock correction), the two
    one-trade batch frames [100] and [50], each sorted, leave the buffer
    [100; 50]. *)
Lemma ordering_invariant_counterexample :
  let env := mkEnv 0 false in
  let ops := [(env, Live [trade_at 100]); (env, Live [trade_at 50])] in
  let s := created None in
  Forall (fun op => non_decreasing (batch_of (snd op))) ops /\
  delayed s = false /\
  map (fun s' => map ts (trades s')) (states ops s) = [[100]; [100; 50]] /\
  ~ Forall (fun s' => non_decreasing (trades s')) (states ops s).
Proof.
  intros env ops s. split; [|split; [|split]].
  - repeat constructor.
  - reflexivity.
  - reflexivity.
  - intros H. inversion H as [|? ? _ H']; subst.
    inversion H' as [|? ? Hbad _]; subst.
    vm_compute in Hbad. inversion Hbad as [|? ? _ Hall]; subst.
    inversion Hall as [|? ? Hle _]; subst.
    vm_compute in Hle. apply Hle. reflexivity.
Qed.

(* ------------------------------------------------------------------ *)
(** * Merging a historical batch *)

(** C2. On a buffer with first trade [first] and last trade [last], a
    history completion without replacement leaves the corrected trades at or
    below [first]'s timestamp, in their order, then the buffer, then the
    corrected trades at or above [last]'s timestamp; a trade strictly between
    the two is in neither added part. With buffer timestamps [100,200,300]
    and batch timestamps [50,150,250,350] the buffer's timestamps become
    [50,100,200,300,350]. *)
Theorem merge_boundary_discard s response first last :
  nth_error (trades s) 0 = Some first ->
  last_of (trades s) = Some last ->
  let batch := corrected s response in
  let prepend := filter (fun trade => ts trade <=? ts first) batch in
  let append := filter (fun trade => ts trade >=? ts last) batch in
  let result := trades (state_of (fetch_then false response s)) in
  result = prepend ++ trades s ++ append /\
  (forall trade, ts first < ts trade < ts last ->
                 ~ In trade prepend /\ ~ In trade append) /\
  (map ts (trades s) = [100; 200; 300] ->
   map ts batch = [50; 150; 250; 350] ->
   map ts result = [50; 100; 200; 300; 350]).
Proof.
  intros Hf Hl batch prepend append result.
  assert (result = prepend ++ trades s ++ append) as Hres.
  { unfold result. rewrite fetch_then_trades. rewrite Hf, Hl.
    destruct (trades s); [discriminate|reflexivity]. }
  split; [exact Hres|split].
  - intros trade Hb. split; intros Hin; apply filter_In in Hin;
      destruct Hin as [_ Hin]; [apply Z.leb_le in Hin|apply Z.geb_le in Hin]; lia.
  - intros Hbuf Hbatch. rewrite Hres. unfold prepend, append.
    destruct (trades s) as [|a [|b [|c [|d l]]]]; try discriminate.
    injection Hf as <-. unfold last_of in Hl. simpl in Hl. injection Hl as <-.
    injection Hbuf as Ha Hb Hc.
    destruct batch as [|r1 [|r2 [|r3 [|r4 [|r5 l]]]]]; try discriminate.
    injection Hbatch as H1 H2 H3 H4.
    unfold ts in *.
    repeat (progress (simpl; rewrite ?Ha, ?Hb, ?Hc, ?H1, ?H2, ?H3, ?H4)).
    reflexivity.
Qed.

Lemma merge_boundary_discard_witness :
  let s := set_trades [trade_at 100; trade_at 200; trade_at 300] (created None) in
  let response := [trade_at 50; trade_at 150; trade_at 250; trade_at 350] in
  map ts (trades (state_of (fetch_then false response s))) = [50; 100; 200; 300; 350].
Proof.
  intros s response.
  exact (proj2 (proj2 (merge_boundary_discard s response (trade_at 100) (trade_at 300)
                         eq_refl eq_refl)) eq_refl eq_refl).
Defined.

(* ------------------------------------------------------------------ *)
(** * Trimming *)

Lemma trim_run timestamp s :
  trim timestamp s =
  let index := trim_scan (trades s) timestamp (List.length (trades s)) in
  if index <? 0 then (inr tt, s, [])
  else (inr tt, set_trades (skipn (Z.to_nat (index + 1)) (trades s)) s,
        [Emit (Trim timestamp)]).
Proof.
  unfold trim, bind, get. cbv beta iota zeta.
  destruct (_ <? 0); reflexivity.
Qed.

(** The loop leaves at the last position below [n] whose trade is older
    than the cutoff, or runs to the end when there is none. *)
Lemma trim_scan_spec l timestamp n :
  (n <= List.length l)%nat ->
  (trim_scan l timestamp n = -1 /\
   forall j trade, (j < n)%nat -> nth_error l j = Some trade -> timestamp <= ts trade)
  \/
  (exists i trade, trim_scan l timestamp n = Z.of_nat i /\ (i < n)%nat /\
     nth_error l i = Some trade /\ ts trade < timestamp /\
     forall j trade', (i < j < n)%nat -> nth_error l j = Some trade' ->
                      timestamp <= ts trade').
Proof.
  induction n as [|n IH]; intros Hn; simpl.
  - left. split; [reflexivity|]. intros; lia.
  - destruct (nth_error l n) as [trade|] eqn:E.
    2:{ apply nth_error_None in E. lia. }
    destruct (ts trade <? timestamp) eqn:C.
    + apply Z.ltb_lt in C. right. exists n, trade.
      repeat split; auto. intros; lia.
    + apply Z.ltb_ge in C. destruct IH as [[H0 H1]|[i [t' [H0 [H1 [H2 [H3 H4]]]]]]]; [lia| |].
      * left. split; [assumption|]. intros j t' Hj Ht'.
        destruct (Nat.eq_dec j n) as [->|Hne]; [congruence|].
        apply (H1 j); [lia|assumption].
      * right. exists i, t'. repeat split; auto.
        intros j t'' Hj Ht''.
        destruct (Nat.eq_dec j n) as [->|Hne]; [congruence|].
        apply (H4 j); [lia|assumption].
Qed.

Lemma non_decreasing_nth l : non_decreasing l ->
  forall i j a b, (i <= j)%nat -> nth_error l i = Some a -> nth_error l j = Some b ->
                  ts a <= ts b.
Proof.
  induction 1 as [|x l Hs IH Hx]; intros i j a b Hij Ha Hb.
  - destruct i; discriminate.
  - destruct i as [|i], j as [|j]; simpl in *; try lia.
    + injection Ha as <-. injection Hb as <-. lia.
    + injection Ha as <-. rewrite Forall_forall in Hx.
      apply Hx. eapply nth_error_In; eauto.
    + apply (IH i j); auto; lia.
Qed.

(** C3. On a buffer with non-decreasing timestamps, [trim(T)] removes
    exactly the longest prefix of trades older than [T] and touches nothing
    else; when [T] is at or below the first timestamp, or the buffer is
    empty, it changes nothing and notifies nobody; when [T] is above every
    timestamp it empties the buffer. *)
Theorem trim_boundary s T :
  non_decreasing (trades s) ->
  let s' := state_of (trim T s) in
  (exists prefix,
      trades s = prefix ++ trades s' /\
      Forall (fun trade => ts trade < T) prefix /\
      Forall (fun trade => T <= ts trade) (trades s') /\
      s' = set_trades (trades s') s) /\
  ((forall first, nth_error (trades s) 0 = Some first -> T <= ts first) ->
   trim T s = (inr tt, s, [])) /\
  ((forall trade, In trade (trades s) -> ts trade < T) -> trades s' = []).
Proof.
  intros Hs s'. unfold s'. rewrite trim_run. cbv zeta.
  destruct (trim_scan_spec (trades s) T (List.length (trades s)) (Nat.le_refl _))
    as [[H0 H1]|[i [x [H0 [Hi [Hx [Hlt H1]]]]]]]; rewrite H0.
  - change (-1 <? 0) with true. unfold state_of; cbn [fst snd].
    split; [|split].
    + exists []. repeat split; auto.
      * apply Forall_forall. intros t Ht.
        destruct (In_nth_error _ _ Ht) as [j Hj].
        apply (H1 j); auto. apply nth_error_Some. congruence.
      * destruct s; reflexivity.
    + reflexivity.
    + intros Hall. destruct (trades s) as [|t l] eqn:E; [reflexivity|].
      assert (In t (t :: l)) as Ht by (simpl; auto).
      specialize (Hall t Ht).
      assert (T <= ts t) by (apply (H1 O t); [simpl; lia | reflexivity]). lia.
  - assert ((Z.of_nat i <? 0) = false) as -> by (apply Z.ltb_ge; lia).
    replace (Z.to_nat (Z.of_nat i + 1)) with (S i) by lia.
    unfold state_of; cbn [fst snd trades set_trades].
    split; [|split].
    + exists (firstn (S i) (trades s)). repeat split.
      * symmetry. apply firstn_skipn.
      * apply Forall_forall. intros t Ht.
        destruct (In_nth_error _ _ Ht) as [j Hj].
        rewrite nth_error_firstn in Hj.
        destruct (j <? S i)%nat eqn:C; [|discriminate].
        apply Nat.ltb_lt in C.
        pose proof (non_decreasing_nth _ Hs j i t x ltac:(lia) Hj Hx). lia.
      * apply Forall_forall. intros t Ht.
        destruct (In_nth_error _ _ Ht) as [j Hj].
        rewrite nth_error_skipn in Hj.
        apply (H1 (S i + j)%nat); auto. split; [lia|].
        apply nth_error_Some. congruence.
    + intros Hfirst. destruct (nth_error (trades s) 0) as [first|] eqn:E.
      * specialize (Hfirst first eq_refl).
        pose proof (non_decreasing_nth _ Hs O i first x ltac:(lia) E Hx). lia.
      * apply nth_error_None in E. lia.
    + intros Hall. apply skipn_all2.
      destruct (Nat.le_gt_cases (List.length (trades s)) (S i)) as [|Hgt]; [assumption|].
      destruct (nth_error (trades s) (S i)) as [t|] eqn:E.
      * assert (In t (trades s)) as Ht by (eapply nth_error_In; eauto).
        specialize (Hall t Ht). specialize (H1 (S i) t ltac:(lia) E). lia.
      * apply nth_error_None in E. lia.
Qed.

Lemma trim_boundary_witness :
  let s := set_trades [trade_at 100; trade_at 200; trade_at 200; trade_at 300]
                      (created None) in
  non_decreasing (trades s) /\
  map ts (trades (state_of (trim 200 s))) = [200; 200; 300] /\
  trim 100 s = (inr tt, s, []) /\
  trades (state_of (trim 301 s)) = [].
Proof.
  intros s.
  assert (H : non_decreasing (trades s)).
  { repeat constructor; unfold le_ts; simpl; lia. }
  split; [exact H|split; [reflexivity|split]].
  - apply (proj1 (proj2 (trim_boundary s 100 H))).
    intros first Hf. injection Hf as <-. simpl. lia.
  - apply (proj2 (proj2 (trim_boundary s 301 H))).
    intros trade [<-|[<-|[<-|[<-|[]]]]]; simpl; lia.
Defined.

(* ------------------------------------------------------------------ *)
(** * Frames the handler does not act on *)

(** C5 (as amended). A frame whose text is empty or not JSON makes the
    message handler raise: the SyntaxError of [JSON.parse] leaves the
    handler. So does a frame whose JSON value is empty in the sense of the
    handler's guard ([null] and the other falsy values), with the error
    "Unable to read socket message". In both cases the state is untouched
    and nothing is emitted. *)
Theorem malformed_frame_raises env event_data s :
  (forall e, JSON_parse event_data = inl e ->
             onmessage env event_data s = (inl e, s, [])) /\
  (forall data, JSON_parse event_data = inr data -> truthy data = false ->
                onmessage env event_data s
                = (inl (ErrorMsg "Unable to read socket message"), s, [])).
Proof.
  split.
  - intros e H. unfold onmessage, bind. rewrite H. reflexivity.
  - intros data H Hf. unfold onmessage, bind. rewrite H. cbn [lift ret].
    rewrite Hf. reflexivity.
Qed.

Lemma malformed_frame_raises_witness :
  onmessage (mkEnv 0 false) EmptyText (created None)
  = (inl SyntaxError, created None, []) /\
  onmessage (mkEnv 0 false) NotJSON (created None)
  = (inl SyntaxError, created None, []) /\
  onmessage (mkEnv 0 false) (JSONText (JString EmptyString)) (created None)
  = (inl (ErrorMsg "Unable to read socket message"), created None, []).
Proof.
  split; [|split].
  - exact (proj1 (malformed_frame_raises (mkEnv 0 false) EmptyText (created None))
             SyntaxError eq_refl).
  - exact (proj1 (malformed_frame_raises (mkEnv 0 false) NotJSON (created None))
             SyntaxError eq_refl).
  - exact (proj2 (malformed_frame_raises (mkEnv 0 false)
                    (JSONText (JString EmptyString)) (created None))
             (JString EmptyString) eq_refl eq_refl).
Defined.

(** C5 as stated fails: on the empty text the handler does not return; it
    ends with the SyntaxError of [JSON.parse]. *)
Lemma malformed_frame_counterexample :
  JSON_parse EmptyText = inl SyntaxError /\
  result_of (onmessage (mkEnv 0 false) EmptyText (created None)) = inl SyntaxError /\
  result_of (onmessage (mkEnv 0 false) NotJSON (created None)) = inl SyntaxError /\
  result_of (onmessage (mkEnv 0 false) EmptyText (created None)) <> inr tt.
Proof. repeat split. discriminate. Qed.

Lemma existsb_recognized ty :
  existsb (String.eqb ty) recognized = false ->
  String.eqb ty "welcome" = false /\
  String.eqb ty "pair" = false /\
  String.eqb ty "exchange_connected" = false /\
  String.eqb ty "exchange_disconnected" = false /\
  String.eqb ty "exchange_error" = false.
Proof.
  unfold recognized. cbn [existsb]. intros H.
  repeat (apply orb_false_elim in H; destruct H as [? H]). auto.
Qed.

(** C6 (as amended). A well-formed frame that is neither a non-empty array
    nor an object with one of the five recognized types: when the value is
    truthy (an empty array, an object of another type, a non-zero number, a
    non-empty string, [true]) the handler returns with the state untouched
    and nothing emitted; when it is falsy ([null], [false], [0], the empty
    string) the handler raises "Unable to read socket message", again with
    the state untouched and nothing emitted. *)
Theorem other_shape_dropped_or_raised env data s :
  is_batch data = false ->
  recognized_control data = false ->
  onmessage env (JSONText data) s =
  if truthy data then (inr tt, s, [])
  else (inl (ErrorMsg "Unable to read socket message"), s, []).
Proof.
  intros Hb Hc. unfold onmessage, bind, lift, JSON_parse, ret.
  destruct (truthy data) eqn:Ht; cbn [negb]; [|reflexivity].
  destruct data as [| b | n | str | a | o]; try reflexivity.
  - destruct a; [reflexivity|discriminate].
  - unfold recognized_control, data_type in Hc. unfold control, data_type.
    destruct (Msg.type o) as [ty|]; [|reflexivity].
    destruct (existsb_recognized ty Hc) as [-> [-> [-> [-> ->]]]].
    reflexivity.
Qed.

Lemma other_shape_dropped_or_raised_witness :
  let env := mkEnv 0 true in
  let s := created None in
  let ping := JObject (Msg.mk (Some "ping") "BTCUSD" [] None false "okex" "late") in
  onmessage env (JSONText (JArray [])) s = (inr tt, s, []) /\
  onmessage env (JSONText ping) s = (inr tt, s, []) /\
  onmessage env (JSONText (JNumber 7)) s = (inr tt, s, []) /\
  onmessage env (JSONText (JBool false)) s
  = (inl (ErrorMsg "Unable to read socket message"), s, []).
Proof.
  intros env s ping. split; [|split; [|split]].
  - exact (other_shape_dropped_or_raised env (JArray []) s eq_refl eq_refl).
  - exact (other_shape_dropped_or_raised env ping s eq_refl eq_refl).
  - exact (other_shape_dropped_or_raised env (JNumber 7) s eq_refl eq_refl).
  - exact (other_shape_dropped_or_raised env (JBool false) s eq_refl eq_refl).
Defined.

(** C6 as stated fails: [null] is well-formed, is not a batch and is not a
    recognized control object, and the handler raises on it. *)
Lemma other_shape_counterexample :
  is_batch JNull = false /\
  recognized_control JNull = false /\
  onmessage (mkEnv 0 false) (JSONText JNull) (created None)
  = (inl (ErrorMsg "Unable to read socket message"), created None, []) /\
  result_of (onmessage (mkEnv 0 false) (JSONText JNull) (created None)) <> inr tt.
Proof. repeat split. discriminate. Qed.

(* ------------------------------------------------------------------ *)
(** * Invariants of handlers

    Rules to establish [inv] and [quiet] along the text of a handler. *)

Lemma requests_app out1 out2 :
  requests (out1 ++ out2) = requests out1 ++ requests out2.
Proof.
  induction out1 as [|e out1 IH]; [reflexivity|].
  destruct e; simpl; rewrite IH; reflexivity.
Qed.

Section Rules.
Context {A B : Type} (I : State -> Prop).

Lemma inv_ret (a : A) : inv I (ret a).
Proof. intros s H. exact H. Qed.

Lemma inv_throw (e : Error) : inv I (throw e : M A).
Proof. intros s H. exact H. Qed.

Lemma inv_lift (r : Error + A) : inv I (lift r).
Proof. destruct r; intros s H; exact H. Qed.

Lemma inv_get : inv I get.
Proof. intros s H. exact H. Qed.

Lemma inv_perform e : inv I (perform e).
Proof. intros s H. exact H. Qed.

Lemma inv_emit n : inv I (emit n).
Proof. intros s H. exact H. Qed.

Lemma inv_modify f : (forall s, I s -> I (f s)) -> inv I (modify f).
Proof. intros Hf s H. exact (Hf s H). Qed.

Lemma inv_when b m : inv I m -> inv I (when b m).
Proof. destruct b; intros Hm s H; [exact (Hm s H)|exact H]. Qed.

Lemma inv_bind (m : M A) (k : A -> M B) :
  inv I m -> (forall a, inv I (k a)) -> inv I (bind m k).
Proof.
  intros Hm Hk s H. unfold bind, state_of. specialize (Hm s H).
  unfold state_of in Hm. destruct (m s) as [[[e|a] s1] out1]; [exact Hm|].
  specialize (Hk a s1 Hm). unfold state_of in Hk.
  destruct (k a s1) as [[r s2] out2]. exact Hk.
Qed.

Lemma quiet_ret (a : A) : quiet (ret a).
Proof. intros s. reflexivity. Qed.

Lemma quiet_throw (e : Error) : quiet (throw e : M A).
Proof. intros s. reflexivity. Qed.

Lemma quiet_lift (r : Error + A) : quiet (lift r).
Proof. destruct r; intros s; reflexivity. Qed.

Lemma quiet_when b m : quiet m -> quiet (when b m).
Proof. destruct b; intros Hm s; [exact (Hm s)|reflexivity]. Qed.

Lemma quiet_bind (m : M A) (k : A -> M B) :
  quiet m -> (forall a, quiet (k a)) -> quiet (bind m k).
Proof.
  intros Hm Hk s. unfold bind, effects_of. specialize (Hm s).
  unfold effects_of in Hm. destruct (m s) as [[[e|a] s1] out1]; [exact Hm|].
  specialize (Hk a s1). unfold effects_of in Hk.
  destruct (k a s1) as [[r s2] out2]. simpl in *.
  rewrite requests_app, Hm, Hk. reflexivity.
Qed.

End Rules.

Lemma quiet_get : quiet get.
Proof. intros s. reflexivity. Qed.

Lemma quiet_modify f : quiet (modify f).
Proof. intros s. reflexivity. Qed.

Lemma quiet_emit n : quiet (emit n).
Proof. intros s. reflexivity. Qed.

Lemma quiet_setTimeout d : quiet (setTimeout d).
Proof. intros s. reflexivity. Qed.

Ltac break_match :=
  match goal with
  | |- context [match ?x with _ => _ end] => destruct x eqn:?
  end.

(** Walks a handler's text, leaving the state changes. *)
Ltac inv_step :=
  first
    [ apply inv_ret | apply inv_throw | apply inv_lift | apply inv_get
    | apply inv_emit | apply inv_perform
    | apply inv_when
    | apply inv_bind; [|intro] ].

Ltac quiet_step :=
  first
    [ apply quiet_ret | apply quiet_throw | apply quiet_lift | apply quiet_get
    | apply quiet_emit | apply quiet_modify | apply quiet_setTimeout
    | apply quiet_when
    | apply quiet_bind; [|intro] ].

Lemma inv_bind_ret {A B} (I : State -> Prop) (a : A) (k : A -> M B) :
  inv I (k a) -> inv I (bind (ret a) k).
Proof.
  intros Hk s H. specialize (Hk s H). unfold bind, ret, state_of in *.
  destruct (k a s) as [[r s2] out2]. exact Hk.
Qed.

Lemma quiet_bind_ret {A B} (a : A) (k : A -> M B) :
  quiet (k a) -> quiet (bind (ret a) k).
Proof.
  intros Hk s. specialize (Hk s). unfold bind, ret, effects_of in *.
  destruct (k a s) as [[r s2] out2]. exact Hk.
Qed.

Lemma inv_bind_throw {A B} (I : State -> Prop) (e : Error) (k : A -> M B) :
  inv I (bind (throw e) k).
Proof. intros s H. exact H. Qed.

Lemma quiet_bind_throw {A B} (e : Error) (k : A -> M B) :
  quiet (bind (throw e) k).
Proof. intros s. reflexivity. Qed.

Ltac inv_auto :=
  repeat first
    [ inv_step
    | apply inv_modify; intros ? ?; assumption
    | break_match; try discriminate ].

Ltac quiet_auto :=
  repeat first [ quiet_step | break_match; try discriminate ].

(** Only a welcome frame touches the clock offset. *)
Lemma step_keeps_offset env e d b :
  is_welcome e = false ->
  inv (fun s => delay s = d /\ delayed s = b) (step env e).
Proof.
  intros Hw.
  destruct e as [rs| |event_data| | |id| |method message| | |from to willReplace
                |willReplace response|err|timestamp]; cbn [step];
    try (unfold onopen, onclose, onerror, connect, reconnect, send, disconnect,
           fetch, fetch_then, fetch_catch, trim, clearTimeout;
         inv_auto; fail).
  - apply inv_modify. intros s H. destruct (socket s); exact H.
  - unfold onmessage. destruct event_data as [| |data]; cbn [JSON_parse lift];
      [apply inv_bind_throw ..|].
    apply inv_bind_ret. destruct (negb (truthy data)); [apply inv_throw|].
    destruct data as [| | | |a|o]; try (unfold control; cbn; apply inv_ret).
    + destruct a; [unfold control; cbn; apply inv_ret|inv_auto].
    + cbn [is_welcome] in Hw. unfold control, data_type.
      destruct (Msg.type o) as [ty|]; [|apply inv_ret].
      rewrite Hw. inv_auto.
Qed.

Ltac unfold_methods :=
  unfold onopen, onclose, onerror, connect, reconnect, send, disconnect,
    fetch, fetch_then, fetch_catch, trim, clearTimeout.

(** Only [fetch] touches the URL of the last request, and nothing changes
    the HTTP base. *)
Lemma step_keeps_last_url env e u l :
  is_fetch e = false ->
  inv (fun s => http_url s = u /\ lastFetchUrl s = l) (step env e).
Proof.
  intros Hf.
  destruct e as [rs| |event_data| | |id| |method message| | |from to willReplace
                |willReplace response|err|timestamp]; cbn [step];
    try discriminate; try (unfold_methods; inv_auto; fail).
  - apply inv_modify. intros s H. destruct (socket s); exact H.
  - unfold onmessage. destruct event_data as [| |data]; cbn [JSON_parse lift];
      [apply inv_bind_throw ..|].
    apply inv_bind_ret. unfold control. inv_auto.
Qed.

Lemma quiet_perform e :
  match e with HttpGet _ => False | _ => True end -> quiet (perform e).
Proof. intros H s. destruct e; [reflexivity ..|destruct H]. Qed.

(** Only [fetch] issues network requests. *)
Lemma step_quiet env e : is_fetch e = false -> quiet (step env e).
Proof.
  intros Hf.
  destruct e as [rs| |event_data| | |id| |method message| | |from to willReplace
                |willReplace response|err|timestamp]; cbn [step];
    try discriminate;
    try (unfold_methods;
         repeat first [quiet_step | apply quiet_perform; exact I
                      | break_match; try discriminate]; fail).
  unfold onmessage. destruct event_data as [| |data]; cbn [JSON_parse lift];
    [apply quiet_bind_throw ..|].
  apply quiet_bind_ret. unfold control. quiet_auto.
Qed.

Lemma run_inv (I : State -> Prop) es :
  (forall env e, In (env, e) es -> inv I (step env e)) ->
  forall s, I s -> I (run es s).
Proof.
  induction es as [|[env e] es IH]; intros H s Hs; [exact Hs|].
  simpl. apply IH.
  - intros env' e' Hin. apply H. right. exact Hin.
  - apply (H env e); [left; reflexivity|exact Hs].
Qed.

Lemma trace_app es1 es2 s :
  trace (es1 ++ es2) s = trace es1 s ++ trace es2 (run es1 s).
Proof.
  revert s. induction es1 as [|[env e] es1 IH]; intros s; [reflexivity|].
  simpl. rewrite IH, app_assoc. reflexivity.
Qed.

Lemma no_fetch_In es env e :
  no_fetch es = true -> In (env, e) es -> is_fetch e = false.
Proof.
  unfold no_fetch. rewrite forallb_forall. intros H Hin.
  specialize (H _ Hin). simpl in H. destruct (is_fetch e); [discriminate|reflexivity].
Qed.

Lemma no_welcome_In es env e :
  no_welcome es = true -> In (env, e) es -> is_welcome e = false.
Proof.
  unfold no_welcome. rewrite forallb_forall. intros H Hin.
  specialize (H _ Hin). simpl in H. destruct (is_welcome e); [discriminate|reflexivity].
Qed.

Lemma run_keeps_offset es s :
  no_welcome es = true ->
  delay (run es s) = delay s /\ delayed (run es s) = delayed s.
Proof.
  intros H.
  apply (run_inv (fun s' => delay s' = delay s /\ delayed s' = delayed s)); auto.
  intros env e Hin. apply step_keeps_offset. eapply no_welcome_In; eauto.
Qed.

Lemma run_keeps_last_url es s :
  no_fetch es = true ->
  http_url (run es s) = http_url s /\ lastFetchUrl (run es s) = lastFetchUrl s.
Proof.
  intros H.
  apply (run_inv (fun s' => http_url s' = http_url s /\
                            lastFetchUrl s' = lastFetchUrl s)); auto.
  intros env e Hin. apply step_keeps_last_url. eapply no_fetch_In; eauto.
Qed.

Lemma trace_quiet es s : no_fetch es = true -> requests (trace es s) = [].
Proof.
  revert s. induction es as [|[env e] es IH]; intros s H; [reflexivity|].
  simpl in *. apply andb_prop in H. destruct H as [He Hes].
  rewrite requests_app, IH by assumption.
  rewrite step_quiet; [reflexivity|].
  destruct (is_fetch e); [discriminate|reflexivity].
Qed.

(* ------------------------------------------------------------------ *)
(** * Clock-skew compensation *)

(** What a welcome frame stores as offset. *)
Lemma welcome_offset env o s :
  Msg.type o = Some "welcome" ->
  let s1 := state_of (onmessage env (JSONText (JObject o)) s) in
  delay s1 = match Msg.timestamp o with
             | Some t => if t =? 0 then 0 else t - now env
             | None => 0
             end /\
  delayed s1 = (Z.abs (delay s1) >? 2000).
Proof.
  intros Hty. unfold onmessage, control, data_type, bind, lift, JSON_parse, ret.
  cbn [truthy negb]. rewrite Hty. cbn [String.eqb Ascii.eqb Bool.eqb andb].
  unfold when, emit, perform, modify, get, ret, state_of.
  destruct (Msg.admin o); cbn; split; reflexivity.
Qed.

Lemma corrected_delayed s batch :
  delayed s = true -> corrected s batch = map (shift (delay s)) batch.
Proof. unfold corrected. intros ->. reflexivity. Qed.

(** C4. With the local clock at or after the epoch, a welcome frame whose
    timestamp is the local clock plus 5000 stores the offset 5000 and sets
    [delayed]; through any later events that contain no welcome frame both
    stay so, every live batch is appended with each timestamp reduced by
    5000, and every history completion stores only trades already in the
    buffer or response trades with the timestamp reduced by 5000 (all of
    them when the buffer is replaced). *)
Theorem clock_correction env o s :
  Msg.type o = Some "welcome" ->
  Msg.timestamp o = Some (now env + 5000) ->
  0 <= now env ->
  let s1 := state_of (onmessage env (JSONText (JObject o)) s) in
  delay s1 = 5000 /\ delayed s1 = true /\
  forall es, no_welcome es = true ->
    let s2 := run es s1 in
    delay s2 = 5000 /\ delayed s2 = true /\
    (forall env' t batch,
        trades (state_of (onmessage env' (JSONText (JArray (t :: batch))) s2)) =
        trades s2 ++ map (shift 5000) (sort (t :: batch))) /\
    (forall willReplace response,
        let s3 := state_of (fetch_then willReplace response s2) in
        (forall trade, In trade (trades s3) ->
                       In trade (trades s2) \/ In trade (map (shift 5000) response)) /\
        (willReplace = true \/ trades s2 = [] ->
         trades s3 = map (shift 5000) response)).
Proof.
  intros Hty Hts Hnow s1.
  destruct (welcome_offset env o s Hty) as [Hd Hb]. fold s1 in Hd, Hb.
  rewrite Hts in Hd.
  assert ((now env + 5000 =? 0) = false) as E by (apply Z.eqb_neq; lia).
  rewrite E in Hd. replace (now env + 5000 - now env) with 5000 in Hd by lia.
  rewrite Hd in Hb. change (Z.abs 5000 >? 2000) with true in Hb.
  split; [exact Hd|split; [exact Hb|]].
  intros es Hes s2.
  destruct (run_keeps_offset es s1 Hes) as [Hd2 Hb2]. fold s2 in Hd2, Hb2.
  rewrite Hd in Hd2. rewrite Hb in Hb2.
  split; [exact Hd2|split; [exact Hb2|split]].
  - intros env' t batch. rewrite onmessage_batch_trades.
    rewrite corrected_delayed, Hd2 by assumption. reflexivity.
  - intros willReplace response s3. unfold s3. rewrite fetch_then_trades.
    rewrite corrected_delayed, Hd2 by assumption. split.
    + intros trade Hin.
      destruct (willReplace || (List.length (trades s2) =? 0)%nat); [right; exact Hin|].
      destruct (nth_error (trades s2) 0); [|left; exact Hin].
      destruct (last_of (trades s2)); [|left; exact Hin].
      apply in_app_or in Hin. destruct Hin as [Hin|Hin].
      * right. apply filter_In in Hin. tauto.
      * apply in_app_or in Hin. destruct Hin as [Hin|Hin]; [left; exact Hin|].
        right. apply filter_In in Hin. tauto.
    + intros [->| ->]; [reflexivity|]. rewrite orb_true_r. reflexivity.
Qed.

Lemma clock_correction_witness :
  let env := mkEnv 1000 false in
  let o := Msg.mk (Some "welcome") "BTCUSD" [mkEntry "okex" true] (Some 6000)
                  false "okex" "none" in
  let s1 := state_of (onmessage env (JSONText (JObject o)) (created None)) in
  let es := [(env, OnMessage (JSONText (JArray [trade_at 9000; trade_at 8000])));
             (env, Reconnect)] in
  delay s1 = 5000 /\ delayed s1 = true /\
  map ts (trades (run es s1)) = [3000; 4000] /\
  map ts (trades (state_of (fetch_then false [trade_at 7000; trade_at 9500]
                              (run es s1)))) = [2000; 3000; 4000; 4500].
Proof.
  intros env o s1 es.
  pose proof (clock_correction env o (created None) eq_refl eq_refl
                ltac:(simpl; lia)) as [H1 [H2 _]].
  split; [exact H1|split; [exact H2|split; reflexivity]].
Defined.

(* ------------------------------------------------------------------ *)
(** * Reconnecting *)

Lemma reconnect_open s :
  socket_open s = true -> reconnect s = (inr tt, s, []).
Proof. intros H. unfold reconnect, bind, get. rewrite H. reflexivity. Qed.

(** A call of [reconnect] with the socket not open. *)
Lemma reconnect_run s :
  socket_open s = false ->
  let s' := state_of (reconnect s) in
  timers s' =
    filter (fun t => match reconnectionTimeout s with
                     | Some i => negb (Nat.eqb (fst t) i)
                     | None => true
                     end) (timers s)
    ++ [(nextTimer s, reconnectionDelay s)] /\
  reconnectionTimeout s' = Some (nextTimer s) /\
  nextTimer s' = S (nextTimer s) /\
  reconnectionDelay s' = (reconnectionDelay s * 1.1)%Q /\
  socket s' = socket s /\
  effects_of (reconnect s) = [].
Proof.
  intros H. unfold reconnect, bind, get. rewrite H.
  repeat split; reflexivity.
Qed.

Lemma reconnects_S n s :
  reconnects (S n) s = state_of (reconnect (reconnects n s)).
Proof. reflexivity. Qed.

Lemma reconnects_socket n s : socket (reconnects n s) = socket s.
Proof.
  induction n as [|n IH]; [reflexivity|]. rewrite reconnects_S.
  destruct (socket_open (reconnects n s)) eqn:E.
  - rewrite reconnect_open by assumption. exact IH.
  - destruct (reconnect_run _ E) as [_ [_ [_ [_ [Hs _]]]]]. congruence.
Qed.

Lemma reconnects_open n s :
  socket_open s = false -> socket_open (reconnects n s) = false.
Proof. unfold socket_open. rewrite reconnects_socket. auto. Qed.

Lemma single_slot_clear s id :
  single_slot s ->
  single_slot (set_timers
                 (filter (fun t => match id with
                                   | Some i => negb (Nat.eqb (fst t) i)
                                   | None => true
                                   end) (timers s)) s).
Proof.
  intros [H|[i [d [H Hr]]]]; unfold single_slot; cbn; rewrite H; cbn.
  - left. reflexivity.
  - destruct id as [j|]; [destruct (Nat.eqb i j)|]; cbn;
      [left; reflexivity|right; eauto ..].
Qed.

Lemma inv_clearTimeout id : inv single_slot (clearTimeout id).
Proof. intros s H. apply single_slot_clear. exact H. Qed.

(** With the slot discipline, a call of [reconnect] with the socket not
    open leaves exactly the timer it has just set. *)
Lemma reconnect_timers s :
  single_slot s -> socket_open s = false ->
  timers (state_of (reconnect s)) = [(nextTimer s, reconnectionDelay s)].
Proof.
  intros Hs Ho. destruct (reconnect_run s Ho) as [Ht _]. rewrite Ht.
  destruct Hs as [H|[i [d [H Hr]]]]; rewrite H; [reflexivity|].
  rewrite Hr. cbn. rewrite Nat.eqb_refl. reflexivity.
Qed.

Lemma inv_reconnect : inv single_slot reconnect.
Proof.
  intros s H. destruct (socket_open s) eqn:E.
  - rewrite reconnect_open by assumption. exact H.
  - right. exists (nextTimer s), (reconnectionDelay s).
    split; [apply reconnect_timers; assumption|].
    apply (reconnect_run s E).
Qed.

Ltac slot_auto :=
  repeat first
    [ apply inv_reconnect
    | apply inv_clearTimeout
    | inv_step
    | apply inv_modify; intros ? ?; assumption
    | break_match; try discriminate ].

(** Every event keeps the slot discipline. *)
Lemma step_single_slot env e : inv single_slot (step env e).
Proof.
  destruct e as [rs| |event_data| | |id| |method message| | |from to willReplace
                |willReplace response|err|timestamp]; cbn [step];
    try (unfold onopen, onclose, onerror, connect, send, disconnect,
           fetch, fetch_then, fetch_catch, trim; slot_auto; fail).
  - apply inv_modify. intros s H. destruct (socket s); exact H.
  - unfold onmessage. destruct event_data as [| |data]; cbn [JSON_parse lift];
      [apply inv_bind_throw ..|].
    apply inv_bind_ret. unfold control. slot_auto.
Qed.

Lemma reachable_single_slot s : reachable s -> single_slot s.
Proof.
  induction 1 as [API_URL|s env e Hr IH].
  - left. reflexivity.
  - apply step_single_slot. exact IH.
Qed.

Lemma reconnects_single_slot n s : single_slot s -> single_slot (reconnects n s).
Proof.
  intros H. induction n as [|n IH]; [exact H|].
  rewrite reconnects_S. apply inv_reconnect. exact IH.
Qed.

(** C8. In every state the emitter can reach, at most one timer is pending
    and it is the one the emitter holds. From such a state with the socket
    not open, after any number of calls of [reconnect] in a row at most one
    timer is pending; after each call exactly one is, the one that call has
    set; and of two calls in a row only the second call's timer is left. *)
Theorem reconnect_single_slot s n :
  reachable s -> socket_open s = false ->
  single_slot s /\
  (List.length (timers (reconnects n s)) <= 1)%nat /\
  timers (reconnects (S n) s)
  = [(nextTimer (reconnects n s), reconnectionDelay (reconnects n s))] /\
  (let s1 := state_of (reconnect s) in
   let s2 := state_of (reconnect s1) in
   timers s1 = [(nextTimer s, reconnectionDelay s)] /\
   timers s2 = [(S (nextTimer s), reconnectionDelay s1)] /\
   pending (nextTimer s) s2 = false).
Proof.
  intros Hr Ho. pose proof (reachable_single_slot s Hr) as Hs.
  split; [exact Hs|split; [|split]].
  - destruct (reconnects_single_slot n s Hs) as [H|[i [d [H _]]]];
      rewrite H; simpl; lia.
  - rewrite reconnects_S. apply reconnect_timers.
    + apply reconnects_single_slot. exact Hs.
    + apply reconnects_open. exact Ho.
  - cbv zeta.
    pose proof (reconnect_timers s Hs Ho) as H1.
    destruct (reconnect_run s Ho) as [_ [_ [Hn [_ [Hsock _]]]]].
    assert (socket_open (state_of (reconnect s)) = false) as Ho1.
    { unfold socket_open. rewrite Hsock. exact Ho. }
    pose proof (reconnect_timers _ (inv_reconnect s Hs) Ho1) as H2.
    rewrite Hn in H2. split; [exact H1|split; [exact H2|]].
    unfold pending. rewrite H2. cbn [existsb fst].
    rewrite orb_false_r. apply Nat.eqb_neq. lia.
Qed.

Lemma reconnect_single_slot_witness :
  let env := mkEnv 0 false in
  let s := run [(env, Connect); (env, OnError); (env, OnClose)] (created None) in
  reachable s /\ socket_open s = false /\
  (List.length (timers (reconnects 5 s)) <= 1)%nat /\
  pending (nextTimer s) (state_of (reconnect (state_of (reconnect s)))) = false.
Proof.
  intros env s.
  assert (reachable s) as Hr.
  { unfold s. cbn [run]. repeat apply reach_step. apply reach_created. }
  assert (socket_open s = false) as Ho by reflexivity.
  destruct (reconnect_single_slot s 5 Hr Ho) as [_ [H1 [_ [_ [_ H2]]]]].
  split; [exact Hr|split; [exact Ho|split; [exact H1|exact H2]]].
Defined.

(* ------------------------------------------------------------------ *)
(** * History requests *)

(** A call of [fetch] with an explicit range. *)
Lemma fetch_run env from to willReplace s :
  to <> 0 ->
  fetch env from (Some to) willReplace s =
  if same_url (lastFetchUrl s) (history_url s from to)
  then (inr Resolved, s, [])
  else (inr (Pending (history_url s from to) willReplace),
        set_lastFetchUrl (Some (history_url s from to)) s,
        [HttpGet (history_url s from to)]).
Proof.
  intros H. apply Z.eqb_neq in H. unfold fetch, history_url. rewrite H.
  unfold bind, get. cbv beta iota.
  destruct (same_url _ _); reflexivity.
Qed.

Lemma step_fetch env from to willReplace s :
  state_of (step env (Fetch from to willReplace) s)
  = state_of (fetch env from to willReplace s) /\
  effects_of (step env (Fetch from to willReplace) s)
  = effects_of (fetch env from to willReplace s).
Proof.
  cbn [step]. unfold bind, ret, state_of, effects_of.
  destruct (fetch env from to willReplace s) as [[[e|p] s1] out1]; cbn;
    rewrite ?app_nil_r; split; reflexivity.
Qed.

(** After a call of [fetch] with an explicit range, and through events
    that are not calls of [fetch], the key is the URL of that range. *)
Lemma fetch_records_url env from to willReplace es s :
  to <> 0 -> no_fetch es = true ->
  let s1 := run ((env, Fetch from (Some to) willReplace) :: es) s in
  http_url s1 = http_url s /\
  same_url (lastFetchUrl s1) (history_url s from to) = true.
Proof.
  intros Hto Hes s1. unfold s1. cbn [run].
  destruct (step_fetch env from (Some to) willReplace s) as [-> _].
  destruct (run_keeps_last_url es (state_of (fetch env from (Some to) willReplace s)) Hes)
    as [-> ->].
  rewrite fetch_run by assumption.
  destruct (same_url (lastFetchUrl s) (history_url s from to)) eqn:E;
    unfold state_of; cbn; split; auto.
  apply String.eqb_refl.
Qed.

(** C9 (as amended). After a call [fetch(t1, t2)] with non-zero [t2], and
    with no other call of [fetch] in between (any other events may run),
    a second call with the same range returns a promise already resolved,
    changes nothing and issues no request; the two calls together issue at
    most one request: exactly one, for the range's URL, unless that URL was
    already the last one requested. *)
Theorem duplicate_fetch_suppressed env1 env2 from to w1 w2 es s :
  to <> 0 -> no_fetch es = true ->
  let first := (env1, Fetch from (Some to) w1) in
  let second := (env2, Fetch from (Some to) w2) in
  let s1 := run (first :: es) s in
  fetch env2 from (Some to) w2 s1 = (inr Resolved, s1, []) /\
  requests (trace (first :: es ++ [second]) s) =
  if same_url (lastFetchUrl s) (history_url s from to) then []
  else [history_url s from to].
Proof.
  intros Hto Hes first second s1.
  destruct (fetch_records_url env1 from to w1 es s Hto Hes) as [Hu Hl].
  fold first s1 in Hu, Hl.
  assert (fetch env2 from (Some to) w2 s1 = (inr Resolved, s1, [])) as H2.
  { rewrite fetch_run by assumption. unfold history_url in *.
    rewrite Hu, Hl. reflexivity. }
  split; [exact H2|].
  change (first :: es ++ [second]) with ((first :: es) ++ [second]).
  rewrite trace_app. fold s1. rewrite requests_app.
  unfold second at 1. cbn [trace].
  destruct (step_fetch env2 from (Some to) w2 s1) as [_ ->].
  rewrite H2. unfold effects_of at 2. cbn [snd app requests].
  rewrite app_nil_r. unfold first. cbn [trace]. rewrite requests_app.
  rewrite trace_quiet by assumption. rewrite app_nil_r.
  destruct (step_fetch env1 from (Some to) w1 s) as [_ ->].
  rewrite fetch_run by assumption.
  destruct (same_url (lastFetchUrl s) (history_url s from to)); reflexivity.
Qed.

Lemma duplicate_fetch_suppressed_witness :
  let env := mkEnv 5000 false in
  let s := created None in
  let first := (env, Fetch 1000 (Some 2000) false) in
  let live := (env, OnMessage (JSONText (JArray [trade_at 1500]))) in
  let second := (mkEnv 5100 false, Fetch 1000 (Some 2000) false) in
  requests (trace [first; live; second] s)
  = ["http://localhost:3000/history/1000/2000"].
Proof.
  intros env s first live second.
  exact (proj2 (duplicate_fetch_suppressed env (mkEnv 5100 false) 1000 2000
                  false false [live] s ltac:(discriminate) eq_refl)).
Defined.

(** C9 as stated fails. The key is the last URL only: the calls
    [fetch(1000, 2000)], [fetch(3000, 4000)], [fetch(1000, 2000)], none
    resolved yet, request the first URL twice. With [t2 = 0] the range is
    read as "the last [t1] minutes" and the URL follows the clock: two calls
    [fetch(5, 0)] at clock readings 1000 and 2000 issue two requests. And
    two calls for the URL last requested issue no request at all. *)
Lemma duplicate_fetch_counterexample :
  let s := created None in
  requests (trace [(mkEnv 1000 false, Fetch 1000 (Some 2000) false);
                   (mkEnv 1001 false, Fetch 3000 (Some 4000) false);
                   (mkEnv 1002 false, Fetch 1000 (Some 2000) false)] s)
  = ["http://localhost:3000/history/1000/2000";
     "http://localhost:3000/history/3000/4000";
     "http://localhost:3000/history/1000/2000"] /\
  requests (trace [(mkEnv 1000 false, Fetch 5 (Some 0) false);
                   (mkEnv 2000 false, Fetch 5 (Some 0) false)] s)
  = ["http://localhost:3000/history/-299000/1000";
     "http://localhost:3000/history/-298000/2000"] /\
  (let s1 := run [(mkEnv 1000 false, Fetch 1000 (Some 2000) false);
                  (mkEnv 1500 false, FetchThen false [])] s in
   requests (trace [(mkEnv 2000 false, Fetch 1000 (Some 2000) false);
                    (mkEnv 2001 false, Fetch 1000 (Some 2000) false)] s1)
   = []).
Proof. split; [|split]; reflexivity. Qed.

(** C10 (as amended). After a call [fetch(from, to)] with non-zero [to]
    whose request fails, and with no other call of [fetch] in between (any
    other events may run before and after the failure), the next call with
    the same range returns a promise already resolved, changes nothing and
    issues no request: the failure handler leaves [lastFetchUrl] as it is,
    and the key still is the range's URL. *)
Theorem failed_fetch_not_retried env1 env2 env3 from to w1 w2 err es1 es2 s :
  to <> 0 -> no_fetch es1 = true -> no_fetch es2 = true ->
  let s1 := run ((env1, Fetch from (Some to) w1)
                   :: es1 ++ (env2, FetchCatch err) :: es2) s in
  (forall s', lastFetchUrl (state_of (fetch_catch err s')) = lastFetchUrl s') /\
  same_url (lastFetchUrl s1) (history_url s from to) = true /\
  fetch env3 from (Some to) w2 s1 = (inr Resolved, s1, []) /\
  requests (effects_of (step env3 (Fetch from (Some to) w2) s1)) = [].
Proof.
  intros Hto H1 H2 s1.
  assert (no_fetch (es1 ++ (env2, FetchCatch err) :: es2) = true) as Hes.
  { unfold no_fetch in *. rewrite forallb_app. cbn. rewrite H1, H2. reflexivity. }
  destruct (fetch_records_url env1 from to w1 _ s Hto Hes) as [Hu Hl].
  fold s1 in Hu, Hl.
  assert (fetch env3 from (Some to) w2 s1 = (inr Resolved, s1, [])) as H3.
  { rewrite fetch_run by assumption. unfold history_url in *.
    rewrite Hu, Hl. reflexivity. }
  split; [|split; [exact Hl|split; [exact H3|]]].
  - intros s'. destruct err; reflexivity.
  - destruct (step_fetch env3 from (Some to) w2 s1) as [_ ->].
    rewrite H3. reflexivity.
Qed.

Lemma failed_fetch_not_retried_witness :
  let env := mkEnv 5000 false in
  let s := created None in
  let s1 := run [(env, Fetch 1000 (Some 2000) false);
                 (env, FetchCatch (Some "Network Error"));
                 (env, TrimTo 0)] s in
  fetch (mkEnv 9000 false) 1000 (Some 2000) false s1 = (inr Resolved, s1, []).
Proof.
  intros env s s1.
  exact (proj1 (proj2 (proj2
           (failed_fetch_not_retried env env (mkEnv 9000 false) 1000 2000
              false false (Some "Network Error") [] [(env, TrimTo 0)] s
              ltac:(discriminate) eq_refl eq_refl)))).
Defined.

(** C10 as stated fails: the key holds the last URL only. After
    [fetch(1000, 2000)] has failed and [fetch(3000, 4000)] has been called,
    [fetch(1000, 2000)] issues a new request. And with [to = 0] the URL
    follows the clock: after [fetch(5, 0)] has failed at clock reading 1000,
    [fetch(5, 0)] at clock reading 2000 issues a new request. *)
Lemma failed_fetch_counterexample :
  let s := created None in
  let s1 := run [(mkEnv 1000 false, Fetch 1000 (Some 2000) false);
                 (mkEnv 1001 false, FetchCatch (Some "Network Error"));
                 (mkEnv 1002 false, Fetch 3000 (Some 4000) false)] s in
  let s2 := run [(mkEnv 1000 false, Fetch 5 (Some 0) false);
                 (mkEnv 1001 false, FetchCatch (Some "Network Error"))] s in
  fetch (mkEnv 1003 false) 1000 (Some 2000) false s1
  = (inr (Pending "http://localhost:3000/history/1000/2000" false),
     set_lastFetchUrl (Some "http://localhost:3000/history/1000/2000") s1,
     [HttpGet "http://localhost:3000/history/1000/2000"]) /\
  effects_of (fetch (mkEnv 2000 false) 5 (Some 0) false s2)
  = [HttpGet "http://localhost:3000/history/-298000/2000"].
Proof. split; reflexivity. Qed.

(* ------------------------------------------------------------------ *)
(** * Trimming, on any buffer *)

Lemma trim_noop timestamp s :
  Forall (fun trade => timestamp <= ts trade) (trades s) ->
  trim timestamp s = (inr tt, s, []).
Proof.
  intros H. rewrite trim_run. cbv zeta.
  destruct (trim_scan_spec (trades s) timestamp (List.length (trades s))
              (Nat.le_refl _)) as [[H0 _]|[i [x [_ [_ [Hx [Hlt _]]]]]]].
  - rewrite H0. reflexivity.
  - rewrite Forall_forall in H. apply nth_error_In in Hx.
    specialize (H x Hx). lia.
Qed.

(** The two ways [trim] ends. *)
Lemma trim_cases timestamp s :
  (trim timestamp s = (inr tt, s, []) /\
   Forall (fun trade => timestamp <= ts trade) (trades s))
  \/
  (exists i x,
      trim timestamp s
      = (inr tt, set_trades (skipn (S i) (trades s)) s, [Emit (Trim timestamp)]) /\
      nth_error (trades s) i = Some x /\ ts x < timestamp /\
      Forall (fun trade => timestamp <= ts trade) (skipn (S i) (trades s))).
Proof.
  rewrite trim_run. cbv zeta.
  destruct (trim_scan_spec (trades s) timestamp (List.length (trades s))
              (Nat.le_refl _)) as [[H0 H1]|[i [x [H0 [Hi [Hx [Hlt H1]]]]]]];
    rewrite H0.
  - left. split; [reflexivity|].
    apply Forall_forall. intros t Ht. destruct (In_nth_error _ _ Ht) as [j Hj].
    apply (H1 j); auto. apply nth_error_Some. congruence.
  - right. exists i, x.
    assert ((Z.of_nat i <? 0) = false) as -> by (apply Z.ltb_ge; lia).
    replace (Z.to_nat (Z.of_nat i + 1)) with (S i) by lia.
    repeat split; auto.
    apply Forall_forall. intros t Ht. destruct (In_nth_error _ _ Ht) as [j Hj].
    rewrite nth_error_skipn in Hj.
    apply (H1 (S i + j)%nat); auto. split; [lia|].
    apply nth_error_Some. congruence.
Qed.

(** X1. On any buffer, sorted or not, [trim(T)] returns, keeps a suffix
    of the buffer in which no trade is older than [T], and touches nothing
    else. It notifies [trim] exactly when some trade is older than [T], and
    then the buffer gets shorter; otherwise nothing changes and nothing is
    emitted. *)
Theorem trim_any_buffer s T :
  let r := trim T s in
  result_of r = inr tt /\
  (exists k, state_of r = set_trades (skipn k (trades s)) s) /\
  Forall (fun trade => T <= ts trade) (trades (state_of r)) /\
  ((exists trade, In trade (trades s) /\ ts trade < T) ->
   effects_of r = [Emit (Trim T)] /\
   (List.length (trades (state_of r)) < List.length (trades s))%nat) /\
  ((forall trade, In trade (trades s) -> T <= ts trade) -> r = (inr tt, s, [])).
Proof.
  cbv zeta.
  destruct (trim_cases T s) as [[H Hall]|[i [x [H [Hx [Hlt Hall]]]]]]; rewrite H;
    unfold result_of, state_of, effects_of; cbn [fst snd trades set_trades].
  - split; [reflexivity|split; [|split; [exact Hall|split]]].
    + exists O. destruct s; reflexivity.
    + intros [t [Ht Hlt]]. rewrite Forall_forall in Hall.
      specialize (Hall t Ht). lia.
    + reflexivity.
  - split; [reflexivity|split; [|split; [exact Hall|split]]].
    + exists (S i). reflexivity.
    + intros _. split; [reflexivity|]. rewrite length_skipn.
      assert (i < List.length (trades s))%nat
        by (apply nth_error_Some; congruence). lia.
    + intros Hge. apply nth_error_In in Hx. specialize (Hge x Hx). lia.
Qed.

Lemma trim_any_buffer_witness :
  let s := set_trades [trade_at 300; trade_at 100; trade_at 200] (created None) in
  map ts (trades (state_of (trim 150 s))) = [200] /\
  effects_of (trim 150 s) = [Emit (Trim 150)] /\
  trim 50 s = (inr tt, s, []).
Proof.
  intros s. split; [reflexivity|split].
  - apply (proj1 (proj2 (proj2 (proj2 (trim_any_buffer s 150))))).
    exists (trade_at 100). split; [simpl; auto|simpl; lia].
  - apply (proj2 (proj2 (proj2 (proj2 (trim_any_buffer s 50))))).
    intros trade [<-|[<-|[<-|[]]]]; simpl; lia.
Defined.

(** X2. Trimming twice at the same cutoff: the second call changes
    nothing and emits nothing, whatever the buffer. *)
Theorem trim_idempotent s T :
  trim T (state_of (trim T s)) = (inr tt, state_of (trim T s), []).
Proof.
  apply trim_noop.
  destruct (trim_cases T s) as [[H Hall]|[i [x [H [_ [_ Hall]]]]]]; rewrite H;
    unfold state_of; cbn [fst snd trades set_trades]; exact Hall.
Qed.

Lemma filter_all_false {A} (f : A -> bool) l :
  Forall (fun x => f x = false) l -> filter f l = [].
Proof.
  induction 1 as [|x l Hx _ IH]; simpl; [reflexivity|]. rewrite Hx. exact IH.
Qed.

Lemma filter_all_true {A} (f : A -> bool) l :
  Forall (fun x => f x = true) l -> filter f l = l.
Proof.
  induction 1 as [|x l Hx _ IH]; simpl; [reflexivity|]. rewrite Hx, IH. reflexivity.
Qed.

(** On a buffer in order, trimming keeps exactly the trades that are not
    older than the cutoff. *)
Lemma trim_sorted_filter s T :
  non_decreasing (trades s) ->
  trades (state_of (trim T s)) = filter (fun trade => T <=? ts trade) (trades s).
Proof.
  intros Hs.
  destruct (trim_cases T s) as [[H Hall]|[i [x [H [Hx [Hlt Hall]]]]]]; rewrite H;
    unfold state_of; cbn [fst snd trades set_trades].
  - symmetry. apply filter_all_true.
    eapply Forall_impl; [|exact Hall]. intros a Ha. apply Z.leb_le. exact Ha.
  - rewrite <- (firstn_skipn (S i) (trades s)) at 2. rewrite filter_app.
    rewrite filter_all_false, filter_all_true; [reflexivity| |].
    + eapply Forall_impl; [|exact Hall]. intros a Ha. apply Z.leb_le. exact Ha.
    + apply Forall_forall. intros t Ht. destruct (In_nth_error _ _ Ht) as [j Hj].
      rewrite nth_error_firstn in Hj.
      destruct (j <? S i)%nat eqn:C; [|discriminate]. apply Nat.ltb_lt in C.
      assert (j <= i)%nat as Hji by lia.
      pose proof (non_decreasing_nth _ Hs j i t x Hji Hj Hx).
      apply Z.leb_gt. lia.
Qed.

Lemma filter_filter_cutoff (T1 T2 : Z) l :
  filter (fun trade => T2 <=? ts trade) (filter (fun trade => T1 <=? ts trade) l)
  = filter (fun trade => Z.max T1 T2 <=? ts trade) l.
Proof.
  induction l as [|a l IH]; [reflexivity|]. simpl.
  destruct (T1 <=? ts a) eqn:E1; simpl; rewrite IH;
    destruct (T2 <=? ts a) eqn:E2; destruct (Z.max T1 T2 <=? ts a) eqn:E3;
    try reflexivity; exfalso;
    rewrite ?Z.leb_le, ?Z.leb_gt in *; lia.
Qed.

(** X3. On a buffer whose timestamps are non-decreasing, trimming keeps
    exactly the trades not older than the cutoff, in their order; the
    buffer stays non-decreasing; and two trims in a row, in either order of
    cutoffs, leave the buffer that one trim at the larger cutoff leaves. *)
Theorem trim_sorted_composes s T1 T2 :
  non_decreasing (trades s) ->
  let s1 := state_of (trim T1 s) in
  trades s1 = filter (fun trade => T1 <=? ts trade) (trades s) /\
  non_decreasing (trades s1) /\
  trades (state_of (trim T2 s1)) = trades (state_of (trim (Z.max T1 T2) s)).
Proof.
  intros Hs s1.
  assert (trades s1 = filter (fun trade => T1 <=? ts trade) (trades s)) as H1
      by (apply trim_sorted_filter; exact Hs).
  assert (non_decreasing (trades s1)) as Hs1
      by (rewrite H1; apply non_decreasing_filter; exact Hs).
  split; [exact H1|split; [exact Hs1|]].
  rewrite (trim_sorted_filter s1 T2 Hs1), H1, filter_filter_cutoff.
  symmetry. apply trim_sorted_filter. exact Hs.
Qed.

Lemma trim_sorted_composes_witness :
  let s := set_trades [trade_at 100; trade_at 200; trade_at 200; trade_at 300]
                      (created None) in
  map ts (trades (state_of (trim 150 (state_of (trim 250 s))))) = [300] /\
  trades (state_of (trim 150 (state_of (trim 250 s))))
  = trades (state_of (trim (Z.max 250 150) s)).
Proof.
  intros s. split; [reflexivity|].
  apply (trim_sorted_composes s 250 150).
  repeat constructor; unfold le_ts; simpl; lia.
Defined.

(* ------------------------------------------------------------------ *)
(** * Who writes the buffer and the exchange list *)

Lemma step_keeps_trades env e l :
  writes_trades e = false -> inv (fun s => trades s = l) (step env e).
Proof.
  intros Hw.
  destruct e as [rs| |event_data| | |id| |method message| | |from to willReplace
                |willReplace response|err|timestamp]; cbn [step];
    try discriminate;
    try (unfold onopen, onclose, onerror, connect, reconnect, send, disconnect,
           fetch, fetch_catch, clearTimeout; inv_auto; fail).
  - apply inv_modify. intros s H. destruct (socket s); exact H.
  - unfold onmessage. destruct event_data as [| |data]; cbn [JSON_parse lift];
      [apply inv_bind_throw ..|].
    apply inv_bind_ret. destruct (negb (truthy data)); [apply inv_throw|].
    destruct data as [| | | |a|o]; unfold control; inv_auto.
Qed.

Lemma step_keeps_exchanges env e l :
  writes_exchanges e = false -> inv (fun s => exchanges s = l) (step env e).
Proof.
  intros Hw.
  destruct e as [rs| |event_data| | |id| |method message| | |from to willReplace
                |willReplace response|err|timestamp]; cbn [step];
    try (unfold onopen, onclose, onerror, connect, reconnect, send, disconnect,
           fetch, fetch_then, fetch_catch, trim, clearTimeout; inv_auto; fail).
  - apply inv_modify. intros s H. destruct (socket s); exact H.
  - unfold onmessage. destruct event_data as [| |data]; cbn [JSON_parse lift];
      [apply inv_bind_throw ..|].
    apply inv_bind_ret. destruct (negb (truthy data)); [apply inv_throw|].
    destruct data as [| | | |a|o]; try (unfold control; cbn; apply inv_ret).
    + destruct a; [unfold control; cbn; apply inv_ret|inv_auto].
    + cbn [writes_exchanges] in Hw. unfold control, data_type.
      destruct (Msg.type o) as [ty|]; [|apply inv_ret].
      apply orb_false_elim in Hw. destruct Hw as [Hw H3].
      apply orb_false_elim in Hw. destruct Hw as [H1 H2].
      rewrite H1, H2, H3. inv_auto.
Qed.

(** X4. The trade buffer is written by batch frames, history completions
    and [trim] only: every other event, a close, an error, a disconnect or
    a welcome frame among them, leaves it as it is. The exchange list is
    written by welcome, exchange_connected and exchange_disconnected frames
    only. *)
Theorem buffer_and_exchanges_writers env e s :
  (writes_trades e = false -> trades (state_of (step env e s)) = trades s) /\
  (writes_exchanges e = false ->
   exchanges (state_of (step env e s)) = exchanges s).
Proof.
  split; intros H.
  - apply (step_keeps_trades env e (trades s) H s). reflexivity.
  - apply (step_keeps_exchanges env e (exchanges s) H s). reflexivity.
Qed.

Lemma buffer_and_exchanges_writers_witness :
  let env := mkEnv 0 true in
  let s := set_exchanges ["okex"]
             (set_trades [trade_at 100; trade_at 200] (created None)) in
  trades (state_of (step env OnClose s)) = trades s /\
  trades (state_of (step env Disconnect s)) = trades s /\
  exchanges (state_of (step env OnClose s)) = exchanges s /\
  exchanges (state_of (step env (FetchThen true []) s)) = exchanges s.
Proof.
  intros env s. repeat apply conj.
  - exact (proj1 (buffer_and_exchanges_writers env OnClose s) eq_refl).
  - exact (proj1 (buffer_and_exchanges_writers env Disconnect s) eq_refl).
  - exact (proj2 (buffer_and_exchanges_writers env OnClose s) eq_refl).
  - exact (proj2 (buffer_and_exchanges_writers env (FetchThen true []) s) eq_refl).
Defined.

Lemma step_fetch_then env willReplace response s :
  state_of (step env (FetchThen willReplace response) s)
  = state_of (fetch_then willReplace response s) /\
  effects_of (step env (FetchThen willReplace response) s)
  = effects_of (fetch_then willReplace response s).
Proof.
  cbn [step]. unfold bind, ret, state_of, effects_of.
  destruct (fetch_then willReplace response s) as [[[e|p] s1] out1]; cbn;
    rewrite ?app_nil_r; split; reflexivity.
Qed.

(** X5. Only a live batch can break the order of the buffer: from a
    buffer with non-decreasing timestamps, every event that is not a batch
    frame leaves the timestamps non-decreasing, a history completion
    provided its batch is sorted, [trim] and all others always. *)
Theorem order_kept_unless_live_batch env e s :
  non_decreasing (trades s) ->
  is_live_batch e = false ->
  (forall willReplace response,
      e = FetchThen willReplace response -> non_decreasing response) ->
  non_decreasing (trades (state_of (step env e s))).
Proof.
  intros Hs Hl Hr.
  destruct (writes_trades e) eqn:Hw.
  - destruct e as [rs| |event_data| | |id| |method message| | |from to willReplace
                  |willReplace response|err|timestamp]; try discriminate.
    + destruct event_data as [| |d]; try discriminate.
      cbn in Hl, Hw. congruence.
    + destruct (step_fetch_then env willReplace response s) as [-> _].
      apply fetch_then_non_decreasing; [exact Hs|]. apply (Hr _ _ eq_refl).
    + cbn [step]. rewrite trim_sorted_filter by exact Hs.
      apply non_decreasing_filter. exact Hs.
  - rewrite (step_keeps_trades env e (trades s) Hw s eq_refl). exact Hs.
Qed.

Lemma order_kept_unless_live_batch_witness :
  let env := mkEnv 0 false in
  let s := set_trades [trade_at 100; trade_at 200; trade_at 300] (created None) in
  non_decreasing (trades (state_of (step env (TrimTo 150) s))) /\
  non_decreasing
    (trades (state_of (step env (FetchThen false [trade_at 50; trade_at 400]) s))).
Proof.
  intros env s.
  assert (non_decreasing (trades s)) as Hs
      by (repeat constructor; unfold le_ts; simpl; lia).
  split.
  - apply (order_kept_unless_live_batch env (TrimTo 150) s Hs eq_refl).
    intros w r H. discriminate.
  - apply (order_kept_unless_live_batch env
             (FetchThen false [trade_at 50; trade_at 400]) s Hs eq_refl).
    intros w r H. injection H as _ <-.
    repeat constructor; unfold le_ts; simpl; lia.
Defined.

(* ------------------------------------------------------------------ *)
(** * History completions and relative requests *)

Lemma set_trades_same s : set_trades (trades s) s = s.
Proof. destruct s; reflexivity. Qed.

(** The whole outcome of a history completion. *)
Lemma fetch_then_run willReplace response s :
  fetch_then willReplace response s =
  let merged := trades (state_of (fetch_then willReplace response s)) in
  (inr (corrected s response), set_trades merged s,
   if (List.length (trades s) =? List.length merged)%nat then []
   else [Emit (History willReplace)]).
Proof.
  cbv zeta. rewrite fetch_then_trades.
  unfold fetch_then, corrected, last_of, bind, get.
  cbv beta iota zeta.
  destruct (willReplace || (List.length (trades s) =? 0)%nat) eqn:E.
  - unfold modify. cbv beta iota. rewrite when_emit. cbn.
    match goal with |- context [negb ?b] => destruct b end; reflexivity.
  - destruct (nth_error (trades s) 0) as [first|] eqn:Ef.
    2:{ apply nth_error_None in Ef. apply orb_false_elim in E.
        destruct E as [_ E]. apply Nat.eqb_neq in E. lia. }
    destruct (nth_error (trades s) (List.length (trades s) - 1)) as [last|] eqn:El.
    2:{ apply nth_error_None in El. apply orb_false_elim in E.
        destruct E as [_ E]. apply Nat.eqb_neq in E. lia. }
    rewrite !when_modify. cbv beta iota. rewrite when_emit. cbn.
    repeat match goal with
           | |- context [filter ?f ?l] =>
               let p := fresh "part" in
               let Ep := fresh "Ep" in
               remember (filter f l) as p eqn:Ep; clear Ep
           end.
    destruct part as [|a1 l1], part0 as [|a2 l2]; cbn;
      rewrite ?app_nil_r, <- ?app_assoc; cbn;
      repeat rewrite set_trades_same;
      match goal with |- context [negb ?b] => destruct b end; reflexivity.
Qed.

(** X6. A history completion never raises: the promise resolves with the
    clock-corrected batch; the state changes in the trade buffer only; and
    the [history] notification is emitted exactly when the buffer's length
    has changed, so a replacement by a batch of the same length is silent. *)
Theorem fetch_then_settles willReplace response s :
  let r := fetch_then willReplace response s in
  result_of r = inr (corrected s response) /\
  state_of r = set_trades (trades (state_of r)) s /\
  effects_of r =
    (if (List.length (trades s) =? List.length (trades (state_of r)))%nat
     then [] else [Emit (History willReplace)]) /\
  (willReplace = true -> trades (state_of r) = corrected s response).
Proof.
  cbv zeta. split; [|split; [|split]].
  - rewrite fetch_then_run. reflexivity.
  - rewrite fetch_then_run at 1. reflexivity.
  - rewrite fetch_then_run at 1. reflexivity.
  - intros ->. rewrite fetch_then_trades. reflexivity.
Qed.

Lemma fetch_then_settles_witness :
  let s := set_trades [trade_at 100; trade_at 200] (created None) in
  let r := fetch_then true [trade_at 7; trade_at 8] s in
  map ts (trades (state_of r)) = [7; 8] /\ effects_of r = [] /\
  trades (state_of r) = corrected s [trade_at 7; trade_at 8].
Proof.
  intros s r. split; [reflexivity|split; [reflexivity|]].
  exact (proj2 (proj2 (proj2 (fetch_then_settles true [trade_at 7; trade_at 8] s)))
           eq_refl).
Defined.

(** X7. A history completion without replacement whose corrected trades
    all lie strictly inside the span of a non-empty buffer (an empty
    response among them) changes nothing and emits nothing. *)
Theorem fetch_then_interior_noop response s first last :
  nth_error (trades s) 0 = Some first ->
  last_of (trades s) = Some last ->
  Forall (fun trade => ts first < ts trade < ts last) (corrected s response) ->
  fetch_then false response s = (inr (corrected s response), s, []).
Proof.
  intros Hf Hl Hin.
  assert (trades (state_of (fetch_then false response s)) = trades s) as Ht.
  { rewrite fetch_then_trades, Hf, Hl.
    destruct (trades s) as [|a l] eqn:E; [discriminate|]. cbn [orb length Nat.eqb].
    rewrite !filter_all_false.
    - rewrite app_nil_r. reflexivity.
    - eapply Forall_impl; [|exact Hin]. intros t Ht. cbv beta in Ht.
      rewrite Z.geb_leb. apply Z.leb_gt. lia.
    - eapply Forall_impl; [|exact Hin]. intros t Ht. cbv beta in Ht.
      apply Z.leb_gt. lia. }
  rewrite fetch_then_run. cbv zeta. rewrite Ht, set_trades_same, Nat.eqb_refl.
  reflexivity.
Qed.

Lemma fetch_then_interior_noop_witness :
  let s := set_trades [trade_at 100; trade_at 200; trade_at 300] (created None) in
  fetch_then false [trade_at 150; trade_at 250] s
  = (inr [trade_at 150; trade_at 250], s, []) /\
  fetch_then false [] s = (inr [], s, []).
Proof.
  intros s. split.
  - apply (fetch_then_interior_noop [trade_at 150; trade_at 250] s
             (trade_at 100) (trade_at 300) eq_refl eq_refl).
    repeat constructor; simpl; lia.
  - apply (fetch_then_interior_noop [] s (trade_at 100) (trade_at 300)
             eq_refl eq_refl).
    constructor.
Defined.



(* ------------------------------------------------------------------ *)
(** * Live batches *)

Lemma corrected_perm s l1 l2 :
  Permutation l1 l2 -> Permutation (corrected s l1) (corrected s l2).
Proof.
  intros P. unfold corrected. destruct (delayed s); [apply Permutation_map|];
    exact P.
Qed.

(** X9. A batch frame never raises and loses no trade: the handler
    appends to the buffer a rearrangement of the frame's trades, each
    clock-corrected, with non-decreasing timestamps; it notifies [trades]
    with exactly the trades it has appended; and it changes nothing else. *)
Theorem live_batch_appended env t batch s :
  exists appended,
    onmessage env (JSONText (JArray (t :: batch))) s
    = (inr tt, set_trades (trades s ++ appended) s, [Emit (Trades appended)]) /\
    Permutation (corrected s (t :: batch)) appended /\
    non_decreasing appended /\
    List.length appended = S (List.length batch).
Proof.
  exists (corrected s (sort (t :: batch))).
  assert (Permutation (corrected s (t :: batch)) (corrected s (sort (t :: batch))))
    as P by (apply corrected_perm, sort_perm).
  split; [reflexivity|split; [exact P|split]].
  - apply non_decreasing_corrected, sort_non_decreasing.
  - rewrite <- (Permutation_length P). unfold corrected.
    destruct (delayed s); [rewrite length_map|]; reflexivity.
Qed.

(* ------------------------------------------------------------------ *)
(** * The exchange list *)

Lemma indexOf_from_absent x l i :
  0 <= i -> (indexOf_from x l i = -1 <-> ~ In x l).
Proof.
  revert i. induction l as [|y l IH]; intros i Hi; cbn [indexOf_from In].
  - tauto.
  - destruct (String.eqb y x) eqn:E.
    + apply String.eqb_eq in E. split; [lia|tauto].
    + apply String.eqb_neq in E. rewrite IH by lia. tauto.
Qed.

Lemma indexOf_from_first x l1 l2 i :
  ~ In x l1 ->
  indexOf_from x (l1 ++ x :: l2) i = i + Z.of_nat (List.length l1).
Proof.
  revert i. induction l1 as [|y l1 IH]; intros i Hn; cbn [indexOf_from app List.length].
  - rewrite String.eqb_refl. lia.
  - destruct (String.eqb y x) eqn:E.
    + apply String.eqb_eq in E. exfalso. apply Hn. left. exact E.
    + rewrite IH by (intros H; apply Hn; right; exact H). lia.
Qed.

Lemma splice_first {A} (l1 l2 : list A) x :
  splice (List.length l1) 1 (l1 ++ x :: l2) = l1 ++ l2.
Proof.
  unfold splice. rewrite firstn_app, firstn_all, Nat.sub_diag. cbn [firstn].
  rewrite app_nil_r. rewrite skipn_app, skipn_all2 by lia.
  replace (List.length l1 + 1 - List.length l1)%nat with 1%nat by lia.
  reflexivity.
Qed.

Lemma exchange_connected_run env o s :
  Msg.type o = Some "exchange_connected" ->
  let ex := if indexOf (Msg.id o) (exchanges s) =? -1
            then exchanges s ++ [Msg.id o] else exchanges s in
  exchanges (state_of (onmessage env (JSONText (JObject o)) s)) = ex /\
  exists alert,
    effects_of (onmessage env (JSONText (JObject o)) s)
    = (if debug env then [Emit (AlertN alert)] else []) ++ [Emit (Exchanges ex)].
Proof.
  intros Hty ex. unfold ex.
  unfold onmessage, control, data_type, bind, lift, JSON_parse, ret.
  cbn [truthy negb]. rewrite Hty. cbn [String.eqb Ascii.eqb Bool.eqb andb].
  unfold when, emit, perform, modify, get, ret, state_of, effects_of.
  destruct (debug env); destruct (indexOf (Msg.id o) (exchanges s) =? -1); cbn;
    (split;
     [reflexivity
     |first [eexists; reflexivity
            |exists (mkAlert EmptyString EmptyString None None None); reflexivity]]).
Qed.

Lemma exchange_disconnected_run env o s :
  Msg.type o = Some "exchange_disconnected" ->
  let ex := if indexOf (Msg.id o) (exchanges s) =? -1
            then exchanges s
            else splice (Z.to_nat (indexOf (Msg.id o) (exchanges s))) 1
                        (exchanges s) in
  exchanges (state_of (onmessage env (JSONText (JObject o)) s)) = ex /\
  exists alert,
    effects_of (onmessage env (JSONText (JObject o)) s)
    = (if debug env then [Emit (AlertN alert)] else []) ++ [Emit (Exchanges ex)].
Proof.
  intros Hty ex. unfold ex.
  unfold onmessage, control, data_type, bind, lift, JSON_parse, ret.
  cbn [truthy negb]. rewrite Hty. cbn [String.eqb Ascii.eqb Bool.eqb andb].
  unfold when, emit, perform, modify, get, ret, state_of, effects_of.
  destruct (debug env); destruct (indexOf (Msg.id o) (exchanges s) =? -1); cbn;
    (split;
     [reflexivity
     |first [eexists; reflexivity
            |exists (mkAlert EmptyString EmptyString None None None); reflexivity]]).
Qed.

(** X10. An exchange_connected frame adds its id at the end of the
    exchange list when the id is absent and leaves the list alone when it
    is present; so the id is a member afterwards, a repeated frame changes
    nothing more, and a list without duplicates stays without duplicates.
    The [exchanges] notification is emitted last, with the resulting list,
    also when nothing has changed. *)
Theorem exchange_connected_idempotent env o s :
  Msg.type o = Some "exchange_connected" ->
  let r1 := onmessage env (JSONText (JObject o)) s in
  let r2 := onmessage env (JSONText (JObject o)) (state_of r1) in
  In (Msg.id o) (exchanges (state_of r1)) /\
  (In (Msg.id o) (exchanges s) -> exchanges (state_of r1) = exchanges s) /\
  (~ In (Msg.id o) (exchanges s) ->
   exchanges (state_of r1) = exchanges s ++ [Msg.id o]) /\
  exchanges (state_of r2) = exchanges (state_of r1) /\
  (NoDup (exchanges s) -> NoDup (exchanges (state_of r1))) /\
  (exists before,
      effects_of r1 = before ++ [Emit (Exchanges (exchanges (state_of r1)))]).
Proof.
  intros Hty r1 r2.
  destruct (exchange_connected_run env o s Hty) as [H1 [alert He]].
  fold r1 in H1, He. cbv zeta in H1, He.
  assert (forall s', In (Msg.id o) (exchanges s') ->
                     (indexOf (Msg.id o) (exchanges s') =? -1) = false) as Hin.
  { intros s' H. apply Z.eqb_neq. intros E.
    apply (indexOf_from_absent _ _ 0) in E; [tauto|lia]. }
  assert (forall s', ~ In (Msg.id o) (exchanges s') ->
                     (indexOf (Msg.id o) (exchanges s') =? -1) = true) as Hout.
  { intros s' H. apply Z.eqb_eq. apply indexOf_from_absent; [lia|exact H]. }
  assert (In (Msg.id o) (exchanges (state_of r1))) as Hmem.
  { rewrite H1. destruct (indexOf (Msg.id o) (exchanges s) =? -1) eqn:E.
    - apply in_or_app. right. left. reflexivity.
    - apply Z.eqb_neq in E. destruct (in_dec string_dec (Msg.id o) (exchanges s))
        as [H|H]; [exact H|]. exfalso. apply E.
      apply indexOf_from_absent; [lia|exact H]. }
  split; [exact Hmem|split; [|split; [|split; [|split]]]].
  - intros H. rewrite H1, (Hin s H). reflexivity.
  - intros H. rewrite H1, (Hout s H). reflexivity.
  - destruct (exchange_connected_run env o (state_of r1) Hty) as [H2 _].
    fold r2 in H2. cbv zeta in H2. rewrite H2, (Hin _ Hmem). reflexivity.
  - intros Hnd. rewrite H1.
    destruct (indexOf (Msg.id o) (exchanges s) =? -1) eqn:E; [|exact Hnd].
    apply Z.eqb_eq in E. apply indexOf_from_absent in E; [|lia].
    apply NoDup_app; [exact Hnd|repeat constructor; intros []|].
    intros x Hx [<-|[]]. exact (E Hx).
  - rewrite <- H1 in He. eexists. exact He.
Qed.

Lemma exchange_connected_idempotent_witness :
  let env := mkEnv 0 true in
  let o := Msg.mk (Some "exchange_connected") "BTCUSD" [] None false "okex" "none" in
  let s := set_exchanges ["gdax"] (created None) in
  let r1 := onmessage env (JSONText (JObject o)) s in
  exchanges (state_of r1) = ["gdax"; "okex"] /\
  exchanges (state_of (onmessage env (JSONText (JObject o)) (state_of r1)))
  = exchanges (state_of r1).
Proof.
  intros env o s r1. split; [reflexivity|].
  exact (proj1 (proj2 (proj2 (proj2
           (exchange_connected_idempotent env o s eq_refl))))).
Defined.

(** X11. An exchange_disconnected frame removes the first occurrence of
    its id from the exchange list and nothing else; an absent id leaves the
    list alone; from a list without duplicates the id is absent afterwards
    and the list is still without duplicates. The [exchanges] notification
    is emitted last, with the resulting list, also when nothing changed. *)
Theorem exchange_disconnected_removes env o s :
  Msg.type o = Some "exchange_disconnected" ->
  let r := onmessage env (JSONText (JObject o)) s in
  (~ In (Msg.id o) (exchanges s) -> exchanges (state_of r) = exchanges s) /\
  (forall l1 l2, exchanges s = l1 ++ Msg.id o :: l2 -> ~ In (Msg.id o) l1 ->
                 exchanges (state_of r) = l1 ++ l2) /\
  (NoDup (exchanges s) ->
   NoDup (exchanges (state_of r)) /\ ~ In (Msg.id o) (exchanges (state_of r))) /\
  (exists before,
      effects_of r = before ++ [Emit (Exchanges (exchanges (state_of r)))]).
Proof.
  intros Hty r.
  destruct (exchange_disconnected_run env o s Hty) as [H1 [alert He]].
  fold r in H1, He. cbv zeta in H1, He.
  assert (~ In (Msg.id o) (exchanges s) -> exchanges (state_of r) = exchanges s)
    as Habsent.
  { intros H. rewrite H1.
    assert (indexOf (Msg.id o) (exchanges s) = -1) as ->
        by (apply indexOf_from_absent; [lia|exact H]).
    reflexivity. }
  assert (forall l1 l2, exchanges s = l1 ++ Msg.id o :: l2 -> ~ In (Msg.id o) l1 ->
                        exchanges (state_of r) = l1 ++ l2) as Hfirst.
  { intros l1 l2 Hs Hn. rewrite H1, Hs. unfold indexOf.
    rewrite indexOf_from_first by exact Hn. cbn [Z.add].
    assert ((Z.of_nat (List.length l1) =? -1) = false) as ->
        by (apply Z.eqb_neq; lia).
    rewrite Nat2Z.id. apply splice_first. }
  split; [exact Habsent|split; [exact Hfirst|split]].
  - intros Hnd.
    destruct (in_dec string_dec (Msg.id o) (exchanges s)) as [Hin|Hout].
    + destruct (in_split _ _ Hin) as [l1 [l2 Hs]].
      rewrite Hs in Hnd. pose proof (NoDup_remove _ _ _ Hnd) as [Hnd' Hni].
      assert (~ In (Msg.id o) l1) as Hn1
          by (intros H; apply Hni; apply in_or_app; left; exact H).
      rewrite (Hfirst l1 l2 Hs Hn1). split; assumption.
    + rewrite (Habsent Hout). split; assumption.
  - rewrite <- H1 in He. eexists. exact He.
Qed.

Lemma exchange_disconnected_removes_witness :
  let env := mkEnv 0 false in
  let o := Msg.mk (Some "exchange_disconnected") "BTCUSD" [] None false "okex"
                  "none" in
  let s := set_exchanges ["gdax"; "okex"; "bitmex"; "okex"] (created None) in
  exchanges (state_of (onmessage env (JSONText (JObject o)) s))
  = ["gdax"; "bitmex"; "okex"].
Proof.
  intros env o s.
  exact (proj1 (proj2 (exchange_disconnected_removes env o s eq_refl))
           ["gdax"] ["bitmex"; "okex"] eq_refl
           ltac:(intros [H|[]]; discriminate)).
Defined.

(* ------------------------------------------------------------------ *)
(** * Welcome frames *)

Lemma welcome_exchanges env o s :
  Msg.type o = Some "welcome" ->
  exchanges (state_of (onmessage env (JSONText (JObject o)) s))
  = map entry_id (filter entry_connected (Msg.exchanges o)).
Proof.
  intros Hty. unfold onmessage, control, data_type, bind, lift, JSON_parse, ret.
  cbn [truthy negb]. rewrite Hty. cbn [String.eqb Ascii.eqb Bool.eqb andb].
  unfold when, emit, perform, modify, get, ret, state_of.
  destruct (Msg.admin o); reflexivity.
Qed.

(** X12. Every welcome frame recomputes the offset: it is the frame's
    timestamp minus the clock reading, or 0 when the timestamp is missing
    or 0, whatever it was before; compensation is on exactly when the offset
    is more than 2000 in absolute value, so an offset of exactly 2000 is
    not compensated. The exchange list becomes the ids of the connected
    entries, in the frame's order. The trades already in the buffer are not
    re-timed. A batch that follows is stored shifted by the new offset when
    compensation is on, and as it is otherwise. *)
Theorem welcome_recomputes env o s :
  Msg.type o = Some "welcome" ->
  let s1 := state_of (onmessage env (JSONText (JObject o)) s) in
  let offset := match Msg.timestamp o with
                | Some t => if t =? 0 then 0 else t - now env
                | None => 0
                end in
  delay s1 = offset /\
  delayed s1 = (Z.abs offset >? 2000) /\
  exchanges s1 = map entry_id (filter entry_connected (Msg.exchanges o)) /\
  trades s1 = trades s /\
  forall env' t batch,
    trades (state_of (onmessage env' (JSONText (JArray (t :: batch))) s1))
    = trades s ++ (if Z.abs offset >? 2000
                   then map (shift offset) (sort (t :: batch))
                   else sort (t :: batch)).
Proof.
  intros Hty s1 offset.
  destruct (welcome_offset env o s Hty) as [Hd Hb]. fold s1 in Hd, Hb.
  fold offset in Hd. rewrite Hd in Hb.
  assert (trades s1 = trades s) as Ht.
  { apply (step_keeps_trades env (OnMessage (JSONText (JObject o))) (trades s)
             eq_refl s eq_refl). }
  split; [exact Hd|split; [exact Hb|split; [|split; [exact Ht|]]]].
  - apply welcome_exchanges. exact Hty.
  - intros env' t batch. rewrite onmessage_batch_trades, Ht.
    unfold corrected. rewrite Hb, Hd. reflexivity.
Qed.

Lemma welcome_recomputes_witness :
  let env := mkEnv 10000 false in
  let o := Msg.mk (Some "welcome") "BTCUSD"
                  [mkEntry "okex" true; mkEntry "gdax" false; mkEntry "bitmex" true]
                  (Some 12000) false "okex" "none" in
  let late := Msg.mk (Some "welcome") "BTCUSD" [] (Some 7000) false "okex" "none" in
  let s := set_trades [trade_at 500] (created None) in
  let s1 := state_of (onmessage env (JSONText (JObject o)) s) in
  let s2 := state_of (onmessage env (JSONText (JObject late)) s) in
  delay s1 = 2000 /\ delayed s1 = false /\ exchanges s1 = ["okex"; "bitmex"] /\
  delay s2 = -3000 /\ delayed s2 = true /\
  map ts (trades (state_of (onmessage env (JSONText (JArray [trade_at 8000])) s2)))
  = [500; 11000].
Proof.
  intros env o late s s1 s2.
  destruct (welcome_recomputes env o s eq_refl) as [H1 [H2 [H3 _]]].
  destruct (welcome_recomputes env late s eq_refl) as [H4 [H5 _]].
  repeat apply conj; [exact H1|exact H2|exact H3|exact H4|exact H5|reflexivity].
Defined.

(* ------------------------------------------------------------------ *)
(** * The floor of the reconnection delay *)

Lemma floor_clear s id :
  Forall (fun t => (2000 <= snd t)%Q) (timers s) ->
  Forall (fun t => (2000 <= snd t)%Q)
         (filter (fun t : nat * Q => match id with
                                      | Some i => negb (Nat.eqb (fst t) i)
                                      | None => true
                                      end) (timers s)).
Proof.
  intros H. apply Forall_forall. intros t Ht. apply filter_In in Ht.
  rewrite Forall_forall in H. apply H. tauto.
Qed.

Lemma inv_floor_clearTimeout id :
  inv (fun s => (2000 <= reconnectionDelay s)%Q /\
                Forall (fun t => (2000 <= snd t)%Q) (timers s))
      (clearTimeout id).
Proof. intros s [H1 H2]. split; [exact H1|apply floor_clear; exact H2]. Qed.

Lemma inv_floor_reconnect :
  inv (fun s => (2000 <= reconnectionDelay s)%Q /\
                Forall (fun t => (2000 <= snd t)%Q) (timers s))
      reconnect.
Proof.
  intros s [H1 H2]. destruct (socket_open s) eqn:E.
  - rewrite reconnect_open by assumption. split; assumption.
  - destruct (reconnect_run s E) as [Ht [_ [_ [Hd _]]]]. rewrite Ht, Hd. split.
    + change 1.1%Q with (11 # 10)%Q. lra.
    + apply Forall_app. split; [apply floor_clear; exact H2|].
      constructor; [exact H1|constructor].
Qed.

Ltac floor_auto :=
  repeat first
    [ apply inv_floor_reconnect
    | apply inv_floor_clearTimeout
    | inv_step
    | apply inv_modify; intros ? ?; assumption
    | apply inv_modify; intros ? [? ?]; split;
      [unfold Qle; simpl; lia|assumption]
    | break_match; try discriminate ].

Lemma step_floor env e :
  inv (fun s => (2000 <= reconnectionDelay s)%Q /\
                Forall (fun t => (2000 <= snd t)%Q) (timers s))
      (step env e).
Proof.
  destruct e as [rs| |event_data| | |id| |method message| | |from to willReplace
                |willReplace response|err|timestamp]; cbn [step];
    try (unfold onopen, onclose, onerror, connect, send, disconnect,
           fetch, fetch_then, fetch_catch, trim; floor_auto; fail).
  - apply inv_modify. intros s H. destruct (socket s); exact H.
  - unfold onmessage. destruct event_data as [| |data]; cbn [JSON_parse lift];
      [apply inv_bind_throw ..|].
    apply inv_bind_ret. unfold control. floor_auto.
Qed.

(** X13. In every state the emitter can reach, the reconnection delay is
    at least its initial 2000, and so is the delay of every pending
    reconnect timer: no reconnection is ever scheduled sooner than two
    seconds ahead. *)
Theorem reconnection_delay_floor s :
  reachable s ->
  (2000 <= reconnectionDelay s)%Q /\
  Forall (fun t => (2000 <= snd t)%Q) (timers s).
Proof.
  induction 1 as [API_URL|s env e Hr IH].
  - split; [unfold Qle; simpl; lia|constructor].
  - apply step_floor. exact IH.
Qed.

Lemma reconnection_delay_floor_witness :
  let env := mkEnv 0 false in
  let s := run [(env, Connect); (env, OnError); (env, OnClose)] (created None) in
  (2000 <= reconnectionDelay s)%Q /\
  Forall (fun t => (2000 <= snd t)%Q) (timers s).
Proof.
  intros env s. apply reconnection_delay_floor.
  unfold s. cbn [run]. repeat apply reach_step. apply reach_created.
Defined.

(* ------------------------------------------------------------------ *)
(** * The reconnect timer fires *)

(** X14. When the pending reconnect timer fires, no timer is left
    pending and [connect] runs: it opens a new WebSocket, unless the current
    socket is open, in which case it does nothing. A timer that is not
    pending (cancelled, or fired already) does nothing at all. *)
Theorem timer_fires_once env id s :
  reachable s ->
  let r := step env (TimerFires id) s in
  (pending id s = false -> r = (inr tt, s, [])) /\
  (pending id s = true ->
   timers (state_of r) = [] /\
   effects_of r = (if socket_open s then [] else [NewWebSocket (url s)]) /\
   socket (state_of r) = (if socket_open s then socket s else Some 0) /\
   step env (TimerFires id) (state_of r) = (inr tt, state_of r, [])).
Proof.
  intros Hr r. pose proof (reachable_single_slot s Hr) as Hs.
  unfold r. cbn [step]. split; intros Hp.
  - unfold bind, get. cbv beta iota. rewrite Hp. reflexivity.
  - destruct Hs as [H|[i [d [H _]]]]; unfold pending in Hp; rewrite H in Hp;
      [discriminate|].
    cbn [existsb fst] in Hp. rewrite orb_false_r in Hp.
    assert (filter (fun t : nat * Q => negb (Nat.eqb (fst t) id)) (timers s) = [])
      as Hf by (rewrite H; cbn; rewrite Hp; reflexivity).
    assert (existsb (fun t : nat * Q => Nat.eqb (fst t) id) (timers s) = true)
      as He by (rewrite H; cbn; rewrite Hp; reflexivity).
    unfold clearTimeout, connect, modify, perform, bind, get, ret, state_of,
      effects_of, socket_open, pending.
    cbn. rewrite He. cbn. rewrite ?Hf.
    destruct (socket s) as [rs|] eqn:Es; [destruct (rs =? 1) eqn:Er|];
      cbn; rewrite ?Hf, ?Es, ?Er; cbn; repeat split.
Qed.

Lemma timer_fires_once_witness :
  let env := mkEnv 0 false in
  let s := run [(env, Connect); (env, OnClose)] (created None) in
  timers s = [(1%nat, 2000%Q)] /\
  timers (state_of (step env (TimerFires 1) s)) = [] /\
  effects_of (step env (TimerFires 1) s) = [NewWebSocket "ws://localhost:3000"].
Proof.
  intros env s.
  assert (reachable s) as Hr.
  { unfold s. cbn [run]. repeat apply reach_step. apply reach_created. }
  destruct (proj2 (timer_fires_once env 1 s Hr) eq_refl) as [H1 [H2 _]].
  split; [reflexivity|split; [exact H1|exact H2]].
Defined.

(* ------------------------------------------------------------------ *)
(** * Connected and disconnected notifications *)

Section Silence.
Context {A B : Type} (f : Effect -> bool).

Lemma ne_ret (a : A) : never_emits f (ret a).
Proof. intros s. reflexivity. Qed.

Lemma ne_throw (e : Error) : never_emits f (throw e : M A).
Proof. intros s. reflexivity. Qed.

Lemma ne_lift (r : Error + A) : never_emits f (lift r).
Proof. destruct r; intros s; reflexivity. Qed.

Lemma ne_when b m : never_emits f m -> never_emits f (when b m).
Proof. destruct b; intros Hm s; [exact (Hm s)|reflexivity]. Qed.

Lemma ne_bind (m : M A) (k : A -> M B) :
  never_emits f m -> (forall a, never_emits f (k a)) -> never_emits f (bind m k).
Proof.
  intros Hm Hk s. unfold bind, effects_of. specialize (Hm s).
  unfold effects_of in Hm. destruct (m s) as [[[e|a] s1] out1]; [exact Hm|].
  specialize (Hk a s1). unfold effects_of in Hk.
  destruct (k a s1) as [[r s2] out2]. simpl in *.
  rewrite filter_app, Hm, Hk. reflexivity.
Qed.

Lemma ne_bind_ret (a : A) (k : A -> M B) :
  never_emits f (k a) -> never_emits f (bind (ret a) k).
Proof.
  intros Hk s. specialize (Hk s). unfold bind, ret, effects_of in *.
  destruct (k a s) as [[r s2] out2]. exact Hk.
Qed.

Lemma ne_bind_throw (e : Error) (k : A -> M B) :
  never_emits f (bind (throw e) k).
Proof. intros s. reflexivity. Qed.

End Silence.

Lemma ne_get f : never_emits f get.
Proof. intros s. reflexivity. Qed.

Lemma ne_modify f g : never_emits f (modify g).
Proof. intros s. reflexivity. Qed.

Lemma ne_setTimeout f d : never_emits f (setTimeout d).
Proof. intros s. reflexivity. Qed.

Lemma ne_perform f e : f e = false -> never_emits f (perform e).
Proof. intros H s. cbn. rewrite H. reflexivity. Qed.

Lemma ne_emit f n : f (Emit n) = false -> never_emits f (emit n).
Proof. intros H. apply ne_perform. exact H. Qed.

Ltac ne_auto :=
  repeat first
    [ apply ne_ret | apply ne_throw | apply ne_lift | apply ne_get
    | apply ne_modify | apply ne_setTimeout
    | apply ne_emit; reflexivity | apply ne_perform; reflexivity
    | apply ne_when
    | apply ne_bind; [|intro]
    | break_match; try discriminate ].

(** Only the open and close handlers emit [connected] or [disconnected]. *)
Lemma step_no_link_note env e :
  e <> OnOpen -> e <> OnClose -> never_emits is_link_note (step env e).
Proof.
  intros H1 H2.
  destruct e as [rs| |event_data| | |id| |method message| | |from to willReplace
                |willReplace response|err|timestamp]; cbn [step];
    try congruence;
    try (unfold onerror, connect, reconnect, send, disconnect,
           fetch, fetch_then, fetch_catch, trim, clearTimeout; ne_auto; fail).
  unfold onmessage. destruct event_data as [| |data]; cbn [JSON_parse lift];
    [apply ne_bind_throw ..|].
  apply ne_bind_ret. unfold control. ne_auto.
Qed.

Lemma step_keeps_connected env e b :
  e <> OnOpen -> e <> OnClose -> inv (fun s => connected s = b) (step env e).
Proof.
  intros H1 H2.
  destruct e as [rs| |event_data| | |id| |method message| | |from to willReplace
                |willReplace response|err|timestamp]; cbn [step];
    try congruence;
    try (unfold onerror, connect, reconnect, send, disconnect,
           fetch, fetch_then, fetch_catch, trim, clearTimeout; inv_auto; fail).
  - apply inv_modify. intros s H. destruct (socket s); exact H.
  - unfold onmessage. destruct event_data as [| |data]; cbn [JSON_parse lift];
      [apply inv_bind_throw ..|].
    apply inv_bind_ret. unfold control. inv_auto.
Qed.

Lemma count_effects_app f out1 out2 :
  count_effects f (out1 ++ out2) = (count_effects f out1 + count_effects f out2)%nat.
Proof. unfold count_effects. rewrite filter_app, length_app. reflexivity. Qed.

Lemma filter_link_nil out :
  filter is_link_note out = [] ->
  count_effects is_connected_note out = 0%nat /\
  count_effects is_disconnected_note out = 0%nat.
Proof.
  unfold count_effects, is_link_note.
  induction out as [|e out IH]; [split; reflexivity|].
  cbn [filter]. destruct (is_connected_note e) eqn:E1;
    destruct (is_disconnected_note e) eqn:E2; cbn; try discriminate.
  exact IH.
Qed.

Lemma Event_eq_open_close (e : Event) :
  e = OnOpen \/ e = OnClose \/ (e <> OnOpen /\ e <> OnClose).
Proof. destruct e; auto; right; right; split; discriminate. Qed.

(** One event: a [disconnected] is paid by the [connected] flag, which
    only a [connected] notification sets. *)
Lemma step_link_balance env e s :
  let r := step env e s in
  (count_effects is_disconnected_note (effects_of r)
   + (if connected (state_of r) then 1 else 0)
   <= count_effects is_connected_note (effects_of r)
      + (if connected s then 1 else 0))%nat.
Proof.
  cbv zeta.
  destruct (Event_eq_open_close e) as [-> | [-> | [H1 H2]]].
  - cbn. destruct (connected s); lia.
  - cbn [step]. unfold onclose, reconnect, clearTimeout, setTimeout, when, emit,
      perform, modify, bind, get, ret, state_of, effects_of, socket_open,
      count_effects.
    destruct (connected s) eqn:Ec; cbn; rewrite ?Ec;
      destruct (socket s) as [rs|]; cbn; try destruct (rs =? 1); cbn;
      rewrite ?Ec; lia.
  - pose proof (step_no_link_note env e H1 H2 s) as Hn.
    apply filter_link_nil in Hn. destruct Hn as [-> ->].
    rewrite (step_keeps_connected env e (connected s) H1 H2 s eq_refl). lia.
Qed.

(** X15. Along any run of events, the [disconnected] notifications never
    outnumber the [connected] ones by more than the run's initial
    [connected] flag allows: from a state that is not connected, a fresh
    emitter in particular, every [disconnected] follows a [connected] of its
    own, and while the emitter holds [connected] there is one more
    [connected] than [disconnected]. *)
Theorem link_notifications_balanced es s :
  (count_effects is_disconnected_note (trace es s)
   + (if connected (run es s) then 1 else 0)
   <= count_effects is_connected_note (trace es s)
      + (if connected s then 1 else 0))%nat /\
  (connected s = false ->
   (count_effects is_disconnected_note (trace es s)
    <= count_effects is_connected_note (trace es s))%nat).
Proof.
  assert (forall es s,
             (count_effects is_disconnected_note (trace es s)
              + (if connected (run es s) then 1 else 0)
              <= count_effects is_connected_note (trace es s)
                 + (if connected s then 1 else 0))%nat) as H.
  { clear. induction es as [|[env e] es IH]; intros s.
    - cbn. lia.
    - cbn [trace run]. rewrite !count_effects_app.
      pose proof (step_link_balance env e s) as H1. cbv zeta in H1.
      specialize (IH (state_of (step env e s))). lia. }
  split; [apply H|].
  intros Hc. specialize (H es s). rewrite Hc in H.
  destruct (connected (run es s)); lia.
Qed.

Lemma link_notifications_balanced_witness :
  let env := mkEnv 0 false in
  let es := [(env, Connect); (env, OnClose); (env, OnOpen); (env, OnOpen);
             (env, OnClose); (env, OnClose)] in
  count_effects is_connected_note (trace es (created None)) = 2%nat /\
  count_effects is_disconnected_note (trace es (created None)) = 1%nat /\
  (count_effects is_disconnected_note (trace es (created None))
   <= count_effects is_connected_note (trace es (created None)))%nat.
Proof.
  intros env es. split; [reflexivity|split; [reflexivity|]].
  exact (proj2 (link_notifications_balanced es (created None)) eq_refl).
Defined.

(* ------------------------------------------------------------------ *)
(** * The HTTP base *)

Lemma substring_all s : substring 0 (String.length s) s = s.
Proof.
  induction s as [|c s IH]; [reflexivity|]. cbn. rewrite IH. reflexivity.
Qed.

Lemma prefix_empty s : String.prefix EmptyString s = true.
Proof. destruct s; reflexivity. Qed.

(** X16. The HTTP base of an emitter is its socket URL with the scheme
    [ws://] replaced by [http://] and [wss://] by [https://], the rest
    unchanged; a URL with another scheme is taken as it is. *)
Theorem http_base_of_socket_url rest :
  http_url (created (Some ("ws://" +++ rest))) = "http://" +++ rest /\
  http_url (created (Some ("wss://" +++ rest))) = "https://" +++ rest /\
  url (created (Some ("wss://" +++ rest))) = "wss://" +++ rest /\
  (forall u, String.prefix "ws://" u = false -> String.prefix "wss://" u = false ->
             to_http u = u).
Proof.
  repeat apply conj.
  - unfold created. cbn [String.append String.eqb]. unfold to_http.
    cbn. rewrite prefix_empty, Nat.sub_0_r, substring_all. reflexivity.
  - unfold created. cbn [String.append String.eqb]. unfold to_http.
    cbn. rewrite prefix_empty, Nat.sub_0_r, substring_all. reflexivity.
  - reflexivity.
  - intros u H1 H2. unfold to_http. rewrite H1, H2. reflexivity.
Qed.

Lemma http_base_of_socket_url_witness :
  to_http "tcp://feed:3000" = "tcp://feed:3000".
Proof.
  exact (proj2 (proj2 (proj2 (http_base_of_socket_url EmptyString)))
           "tcp://feed:3000" eq_refl eq_refl).
Defined.

(* ------------------------------------------------------------------ *)
(** * The request URL tells the range *)

Lemma string_of_Z_inj z1 z2 : string_of_Z z1 = string_of_Z z2 -> z1 = z2.
Proof.
  unfold string_of_Z. intros H.
  assert (forall z, NilZero.int_of_string (NilZero.string_of_int (Z.to_int z))
                    = Some (Z.to_int z)) as Hisi.
  { intros z. apply NilZero.isi; destruct z; cbn; intros E; try discriminate;
      injection E as E; exact (DecimalPos.Unsigned.to_uint_nonnil _ E). }
  pose proof (Hisi z1) as H1. rewrite H, Hisi in H1. injection H1 as H1.
  rewrite <- (DecimalZ.of_to z1), <- (DecimalZ.of_to z2), H1. reflexivity.
Qed.

Lemma uint_no_slash d : has_slash (NilEmpty.string_of_uint d) = false.
Proof. induction d; cbn; auto. Qed.

Lemma string_of_Z_no_slash z : has_slash (string_of_Z z) = false.
Proof.
  unfold string_of_Z, NilZero.string_of_int, NilZero.string_of_uint.
  destruct (Z.to_int z) as [d|d]; destruct d; cbn; auto using uint_no_slash.
Qed.

Lemma append_cancel_l p x y : p +++ x = p +++ y -> x = y.
Proof.
  induction p as [|c p IH]; cbn; intros H; [exact H|].
  injection H as H. exact (IH H).
Qed.

Lemma split_at_slash a1 a2 b1 b2 :
  has_slash a1 = false -> has_slash a2 = false ->
  a1 +++ String "/" b1 = a2 +++ String "/" b2 -> a1 = a2 /\ b1 = b2.
Proof.
  revert a2. induction a1 as [|c a1 IH]; intros a2 H1 H2 H;
    destruct a2 as [|c2 a2]; cbn in *.
  - injection H as H. split; [reflexivity|exact H].
  - injection H as Hc _. subst c2. cbn in H2. discriminate.
  - injection H as Hc _. subst c. cbn in H1. discriminate.
  - injection H as Hc H. subst c2.
    apply orb_false_elim in H1. destruct H1 as [_ H1].
    apply orb_false_elim in H2. destruct H2 as [_ H2].
    destruct (IH a2 H1 H2 H) as [-> ->]. split; reflexivity.
Qed.

Lemma history_url_inj s from1 to1 from2 to2 :
  printed_in_full from1 -> printed_in_full to1 ->
  printed_in_full from2 -> printed_in_full to2 ->
  history_url s from1 to1 = history_url s from2 to2 ->
  from1 = from2 /\ to1 = to2.
Proof.
  unfold history_url. intros _ _ _ _ H.
  apply append_cancel_l in H. apply append_cancel_l in H.
  apply split_at_slash in H; auto using string_of_Z_no_slash.
  destruct H as [Hf Ht].
  split; apply string_of_Z_inj; assumption.
Qed.

(** X17. For integer bounds below 10^21 in magnitude, where the URL
    keeps every digit, the URL of an explicit range tells the range: two
    such ranges with the same URL have the same [from] and the same [to].
    So the deduplication does not swallow a request for another such range:
    right after a call of [fetch] for one range with non-zero [to], and
    through any events that are not calls of [fetch], a call for a different
    range with non-zero [to] issues its request. *)
Theorem other_range_is_fetched env1 env2 from1 to1 from2 to2 w1 w2 es s :
  printed_in_full from1 -> printed_in_full to1 ->
  printed_in_full from2 -> printed_in_full to2 ->
  to1 <> 0 -> to2 <> 0 -> no_fetch es = true ->
  (from1, to1) <> (from2, to2) ->
  history_url s from1 to1 <> history_url s from2 to2 /\
  let s1 := run ((env1, Fetch from1 (Some to1) w1) :: es) s in
  fetch env2 from2 (Some to2) w2 s1
  = (inr (Pending (history_url s from2 to2) w2),
     set_lastFetchUrl (Some (history_url s from2 to2)) s1,
     [HttpGet (history_url s from2 to2)]).
Proof.
  intros P1 P2 P3 P4 H1 H2 Hes Hne.
  assert (history_url s from1 to1 <> history_url s from2 to2) as Hu.
  { intros E. apply history_url_inj in E; try assumption.
    destruct E as [-> ->]. apply Hne. reflexivity. }
  split; [exact Hu|]. intros s1.
  destruct (fetch_records_url env1 from1 to1 w1 es s H1 Hes) as [Hb Hl].
  fold s1 in Hb, Hl.
  rewrite fetch_run by assumption.
  assert (history_url s1 from2 to2 = history_url s from2 to2) as ->
      by (unfold history_url; rewrite Hb; reflexivity).
  assert (same_url (lastFetchUrl s1) (history_url s from2 to2) = false) as ->.
  { unfold same_url in *. destruct (lastFetchUrl s1) as [v|]; [|reflexivity].
    apply String.eqb_eq in Hl. subst v. apply String.eqb_neq. exact Hu. }
  reflexivity.
Qed.

Lemma other_range_is_fetched_witness :
  let env := mkEnv 5000 false in
  let s1 := run [(env, Fetch 1000 (Some 2000) false)] (created None) in
  fetch env 1000 (Some 2001) false s1
  = (inr (Pending "http://localhost:3000/history/1000/2001" false),
     set_lastFetchUrl (Some "http://localhost:3000/history/1000/2001") s1,
     [HttpGet "http://localhost:3000/history/1000/2001"]).
Proof.
  intros env s1.
  exact (proj2 (other_range_is_fetched env env 1000 2000 1000 2001 false false []
                  (created None) eq_refl eq_refl eq_refl eq_refl
                  ltac:(discriminate) ltac:(discriminate) eq_refl
                  ltac:(discriminate))).
Defined.

(* ------------------------------------------------------------------ *)
(** * A failed connection attempt *)

Lemma onerror_state s : state_of (onerror s) = state_of (reconnect s).
Proof.
  unfold onerror, reconnect, clearTimeout, setTimeout, emit, perform, modify,
    bind, get, ret, state_of.
  cbn. destruct (socket_open s); reflexivity.
Qed.

Lemma onclose_state s :
  state_of (onclose s)
  = state_of (reconnect (if connected s then set_connected false s else s)).
Proof.
  unfold onclose, reconnect, clearTimeout, setTimeout, when, emit, perform,
    modify, bind, get, ret, state_of, socket_open.
  destruct (connected s); cbn; destruct (socket s) as [rs|];
    try destruct (rs =? 1); reflexivity.
Qed.

(* ------------------------------------------------------------------ *)
(** * Trades on the boundary of a merge *)

(** X19. The two boundary tests of a merge overlap when the buffer's
    first and last timestamps coincide (a buffer of one trade, for one):
    without replacement, corrected trades that all carry that timestamp are
    stored twice, once before the buffer and once after it. *)
Theorem merge_boundary_overlap response s first last :
  nth_error (trades s) 0 = Some first ->
  last_of (trades s) = Some last ->
  ts first = ts last ->
  Forall (fun trade => ts trade = ts first) (corrected s response) ->
  trades (state_of (fetch_then false response s))
  = corrected s response ++ trades s ++ corrected s response.
Proof.
  intros Hf Hl He Hall. rewrite fetch_then_trades, Hf, Hl.
  destruct (trades s) as [|a l] eqn:E; [discriminate|]. cbn [orb List.length Nat.eqb].
  rewrite !filter_all_true; [reflexivity| |].
  - eapply Forall_impl; [|exact Hall]. intros t Ht. cbv beta in Ht.
    rewrite Z.geb_leb. apply Z.leb_le. lia.
  - eapply Forall_impl; [|exact Hall]. intros t Ht. cbv beta in Ht.
    apply Z.leb_le. lia.
Qed.

Lemma merge_boundary_overlap_witness :
  let s := set_trades [trade_at 100] (created None) in
  map ts (trades (state_of (fetch_then false [trade_at 100] s))) = [100; 100; 100].
Proof.
  intros s.
  pose proof (merge_boundary_overlap [trade_at 100] s (trade_at 100) (trade_at 100)
                eq_refl eq_refl eq_refl
                ltac:(repeat constructor)) as H.
  rewrite H. reflexivity.
Defined.

(* ------------------------------------------------------------------ *)
(** * The reconnection delay in binary64 *)

(** The events that do not call [reconnect] and are not an open leave the
    delay alone and set no timer. *)
Lemma step_keeps_delay env e d n :
  e <> OnOpen -> e <> OnClose -> e <> OnError -> e <> Reconnect ->
  inv (fun s => reconnectionDelay s = d /\ nextTimer s = n) (step env e).
Proof.
  intros H1 H2 H3 H4.
  destruct e as [rs| |event_data| | |id| |method message| | |from to willReplace
                |willReplace response|err|timestamp]; cbn [step];
    try congruence;
    try (unfold connect, send, disconnect, fetch, fetch_then, fetch_catch,
           trim, clearTimeout; inv_auto; fail).
  - apply inv_modify. intros s H. destruct (socket s); exact H.
  - unfold onmessage. destruct event_data as [| |data]; cbn [JSON_parse lift];
      [apply inv_bind_throw ..|].
    apply inv_bind_ret. unfold control. inv_auto.
Qed.

Lemma Event_delay_cases (e : Event) :
  e = OnOpen \/ e = OnClose \/ e = OnError \/ e = Reconnect \/
  (e <> OnOpen /\ e <> OnClose /\ e <> OnError /\ e <> Reconnect).
Proof.
  destruct e; auto; right; right; right; right; repeat split; discriminate.
Qed.

Lemma delay_write_other {N} (warm : N) grow e s d :
  e <> OnOpen -> e <> OnClose -> e <> OnError -> e <> Reconnect ->
  delay_write warm grow e s d = d /\ delay_scheduled e s d = [].
Proof. intros H1 H2 H3 H4. destruct e; try congruence; split; reflexivity. Qed.

(** At the rationals, [delay_write] is the write of the handlers to the
    state's field. *)
Lemma delay_write_exact env e s :
  reconnectionDelay (state_of (step env e s))
  = delay_write 5000%Q growQ e s (reconnectionDelay s).
Proof.
  destruct (Event_delay_cases e) as [-> | [-> | [-> | [-> | [H1 [H2 [H3 H4]]]]]]].
  - reflexivity.
  - cbn [step delay_write]. rewrite onclose_state.
    assert (socket_open (if connected s then set_connected false s else s)
            = socket_open s) as Ho by (destruct (connected s); reflexivity).
    destruct (socket_open s) eqn:E.
    + rewrite reconnect_open by exact Ho.
      destruct (connected s); reflexivity.
    + destruct (reconnect_run _ Ho) as [_ [_ [_ [Hd _]]]].
      rewrite Hd. destruct (connected s); reflexivity.
  - cbn [step delay_write]. rewrite onerror_state.
    destruct (socket_open s) eqn:E.
    + rewrite reconnect_open by exact E. reflexivity.
    + destruct (reconnect_run _ E) as [_ [_ [_ [Hd _]]]]. exact Hd.
  - cbn [step delay_write].
    destruct (socket_open s) eqn:E.
    + rewrite reconnect_open by exact E. reflexivity.
    + destruct (reconnect_run _ E) as [_ [_ [_ [Hd _]]]]. exact Hd.
  - destruct (delay_write_other 5000%Q growQ e s (reconnectionDelay s) H1 H2 H3 H4)
      as [-> _].
    apply (step_keeps_delay env e (reconnectionDelay s) (nextTimer s) H1 H2 H3 H4 s).
    split; reflexivity.
Qed.

(** A timer is set exactly where [delay_scheduled] says, with the delay it
    says. *)
Lemma delay_scheduled_exact env e s :
  match delay_scheduled e s (reconnectionDelay s) with
  | [] => nextTimer (state_of (step env e s)) = nextTimer s
  | d :: _ =>
      nextTimer (state_of (step env e s)) = S (nextTimer s) /\
      exists rest, timers (state_of (step env e s)) = rest ++ [(nextTimer s, d)]
  end.
Proof.
  assert (forall s', socket_open s' = false ->
            nextTimer (state_of (reconnect s')) = S (nextTimer s') /\
            exists rest, timers (state_of (reconnect s'))
                         = rest ++ [(nextTimer s', reconnectionDelay s')]) as Hrec.
  { intros s' E. destruct (reconnect_run _ E) as [Ht [_ [Hn _]]].
    split; [exact Hn|eexists; exact Ht]. }
  destruct (Event_delay_cases e) as [-> | [-> | [-> | [-> | [H1 [H2 [H3 H4]]]]]]].
  - reflexivity.
  - cbn [step delay_scheduled]. rewrite onclose_state.
    assert (socket_open (if connected s then set_connected false s else s)
            = socket_open s) as Ho by (destruct (connected s); reflexivity).
    destruct (socket_open s) eqn:E.
    + rewrite reconnect_open by exact Ho.
      destruct (connected s); reflexivity.
    + destruct (Hrec _ Ho) as [Hn [rest Ht]]. rewrite Hn, Ht.
      destruct (connected s); (split; [reflexivity|eexists; reflexivity]).
  - cbn [step delay_scheduled]. rewrite onerror_state.
    destruct (socket_open s) eqn:E.
    + rewrite reconnect_open by exact E. reflexivity.
    + apply Hrec. exact E.
  - cbn [step delay_scheduled].
    destruct (socket_open s) eqn:E.
    + rewrite reconnect_open by exact E. reflexivity.
    + apply Hrec. exact E.
  - destruct (delay_write_other 5000%Q growQ e s (reconnectionDelay s) H1 H2 H3 H4)
      as [_ ->].
    apply (step_keeps_delay env e (reconnectionDelay s) (nextTimer s) H1 H2 H3 H4 s).
    split; reflexivity.
Qed.

Lemma delay_run_exact es s :
  reconnectionDelay (run es s) = delay_run 5000%Q growQ es s (reconnectionDelay s).
Proof.
  revert s. induction es as [|[env e] es IH]; intros s; [reflexivity|].
  cbn [run delay_run]. rewrite IH, delay_write_exact. reflexivity.
Qed.








